(** * m3u8-downloader: playlist resolution and ordered batched download

    A shallow embedding of [src/main.ts] and the properties of its
    specification.

    Modelling conventions.
    - A JavaScript string is a [string]: one [ascii] per code unit (code
      units above 255 are outside the model).
    - A JavaScript [number] is an integer or [NaN] (type [number] below);
      the values met by the program come from [parseInt], array lengths and
      sums of these.  Integers are exact (no rounding above 2^53).
    - [throw] is the right summand of [Throws]; a loop that may run forever
      takes fuel and answers [None] when the fuel runs out.
    - The transport ([fetch]) is a function from URLs to outcomes; the order
      in which the fetches of one batch settle is a parameter.
    - The output file is a record holding the bytes appended so far and
      whether it has been closed; every [write] appends its whole buffer. *)

From Stdlib Require Import ZArith Ascii DecimalString.
From stdpp Require Import list strings.

Local Open Scope Z_scope.

#[local] Arguments String.append !_ _ / : simpl nomatch.
#[local] Arguments Ascii.eqb !_ !_ / : simpl nomatch.

(** ** JavaScript strings *)

Module Js.

(** [s.startsWith(p)] *)
Fixpoint startsWith (s p : string) : bool :=
  match p, s with
  | EmptyString, _ => true
  | String a p', String b s' => Ascii.eqb a b && startsWith s' p'
  | String _ _, EmptyString => false
  end.

(** [s.includes(needle)] *)
Fixpoint includes (s needle : string) : bool :=
  startsWith s needle ||
  match s with
  | EmptyString => false
  | String _ s' => includes s' needle
  end.

(** [s.split(sep)] for a one-character separator; the result is never
    empty: [''.split(sep)] is [['']]. *)
Fixpoint split (sep : ascii) (s : string) : list string :=
  match s with
  | EmptyString => [EmptyString]
  | String c s' =>
      if Ascii.eqb c sep then EmptyString :: split sep s'
      else match split sep s' with
           | [] => [String c EmptyString]
           | w :: ws => String c w :: ws
           end
  end.

(** [a.join(sep)] *)
Definition join (sep : string) (a : list string) : string := String.concat sep a.

(** [a.pop()], as far as the array is concerned *)
Definition pop {A} (a : list A) : list A := removelast a.

(** White space of [trim] and of [parseInt] within the code units of the
    model: TAB, LF, VT, FF, CR, SP and NBSP. *)
Definition isWhiteSpace (c : ascii) : bool :=
  let n := nat_of_ascii c in
  ((9 <=? n) && (n <=? 13) || (n =? 32) || (n =? 160))%nat.

Fixpoint trimStart (s : string) : string :=
  match s with
  | EmptyString => EmptyString
  | String c s' => if isWhiteSpace c then trimStart s' else s
  end.

Fixpoint trimEnd (s : string) : string :=
  match s with
  | EmptyString => EmptyString
  | String c s' =>
      match trimEnd s' with
      | EmptyString => if isWhiteSpace c then EmptyString else String c EmptyString
      | t => String c t
      end
  end.

(** [s.trim()] *)
Definition trim (s : string) : string := trimEnd (trimStart s).

(** [s] without the prefix [p], when it starts with it *)
Fixpoint stripPrefix (p s : string) : option string :=
  match p, s with
  | EmptyString, _ => Some s
  | String a p', String b s' => if Ascii.eqb a b then stripPrefix p' s' else None
  | String _ _, EmptyString => None
  end.

Definition isDigit (c : ascii) : bool :=
  let n := nat_of_ascii c in ((48 <=? n) && (n <=? 57))%nat.

(** The longest prefix that satisfies [p], and the rest *)
Fixpoint span (p : ascii -> bool) (s : string) : string * string :=
  match s with
  | EmptyString => (EmptyString, EmptyString)
  | String c s' =>
      if p c then let '(a, b) := span p s' in (String c a, b)
      else (EmptyString, s)
  end.

(** ** Numbers *)

Inductive number := Num (z : Z) | NaN.

Definition lt (a b : number) : bool :=
  match a, b with
  | Num x, Num y => x <? y
  | _, _ => false
  end.

Definition gt (a b : number) : bool := lt b a.

Definition add (a b : number) : number :=
  match a, b with
  | Num x, Num y => Num (x + y)
  | _, _ => NaN
  end.

(** Value of a digit in radix up to 36 *)
Definition digitVal (c : ascii) : option Z :=
  let n := Z.of_nat (nat_of_ascii c) in
  if (48 <=? n) && (n <=? 57) then Some (n - 48)
  else if (97 <=? n) && (n <=? 122) then Some (n - 87)
  else if (65 <=? n) && (n <=? 90) then Some (n - 55)
  else None.

(** Reads digits of the radix from the left and stops at the first other
    character; [acc] is [None] until a digit has been read. *)
Fixpoint parseDigits (radix : Z) (s : string) (acc : option Z) : option Z :=
  match s with
  | EmptyString => acc
  | String c s' =>
      match digitVal c with
      | Some d =>
          if d <? radix
          then parseDigits radix s' (Some (radix * default 0 acc + d))
          else acc
      | None => acc
      end
  end.

(** [parseInt(s)] with no radix argument.  The value is the exact integer
    that the digits denote: it is the number the code computes as long as
    its magnitude is at most 2^53; above, the code rounds to a double, and
    the properties that compare parsed values state that bound. *)
Definition parseInt (s : string) : number :=
  let s0 := trimStart s in
  let '(sign, s1) :=
    match s0 with
    | String c r =>
        if Ascii.eqb c "-" then (-1, r)
        else if Ascii.eqb c "+" then (1, r)
        else (1, s0)
    | EmptyString => (1, s0)
    end in
  let '(radix, s2) :=
    match stripPrefix "0x" s1, stripPrefix "0X" s1 with
    | Some r, _ => (16, r)
    | None, Some r => (16, r)
    | None, None => (10, s1)
    end in
  match parseDigits radix s2 None with
  | None => NaN
  | Some v => Num (sign * v)
  end.

(** [String(n)] for a natural number *)
Definition ofNat (n : nat) : string := NilEmpty.string_of_uint (Nat.to_uint n).

(** [ToIntegerOrInfinity] on the numbers of the model *)
Definition toInteger (n : number) : Z :=
  match n with Num z => z | NaN => 0 end.

(** [a.slice(start, end)] *)
Definition slice {A} (a : list A) (start stop : number) : list A :=
  let len := Z.of_nat (length a) in
  let rel k := if k <? 0 then Z.max (len + k) 0 else Z.min k len in
  let from := rel (toInteger start) in
  let to := rel (toInteger stop) in
  take (Z.to_nat (to - from)) (drop (Z.to_nat from) a).

End Js.

(** ** Errors and results *)

Inductive JsError :=
| Error (message : string)        (* [new Error(message)] *)
| TypeError (message : string)    (* raised by the language itself *)
| Rejection (reason : string).    (* what the transport rejected with *)

Definition Throws (A : Type) : Type := A + JsError.
Abbreviation Ok := (@inl _ JsError).
Abbreviation Throw := (@inr _ JsError).

(** ** The URL resolver *)

(** [baseUrl.match(/^(https?:\/\/[^\/]+)/)]: the first group, if any. *)
Definition matchDomain (baseUrl : string) : option string :=
  match Js.stripPrefix "http" baseUrl with
  | None => None
  | Some r0 =>
      let '(scheme, r1) :=
        match r0 with
        | String "s" r => ("https", r)
        | _ => ("http", r0)
        end in
      match Js.stripPrefix "://" r1 with
      | None => None
      | Some r2 =>
          let '(host, _) := Js.span (fun c => negb (Ascii.eqb c "/")) r2 in
          match host with
          | EmptyString => None
          | _ => Some (scheme +:+ "://" +:+ host)
          end
      end
  end.

Definition resolveUrl (url baseUrl : string) : string :=
  if Js.startsWith url "http://" || Js.startsWith url "https://" then url
  else
    let baseParts := Js.split "/" baseUrl in
    let baseParts := Js.pop baseParts in
    let baseDir := Js.join "/" baseParts in
    if Js.startsWith url "/" then
      match matchDomain baseUrl with
      | Some domain => domain +:+ url
      | None => url
      end
    else baseDir +:+ "/" +:+ url.

(** ** The variant selector *)

Definition STREAM_INF : string := "#EXT-X-STREAM-INF".

Definition newline : ascii := ascii_of_nat 10.

(** [/BANDWIDTH=(\d+)/] tried at the start of [s]: the digits, when [s]
    starts with ["BANDWIDTH="] and a digit. *)
Definition matchBandwidthAt (s : string) : option string :=
  match Js.stripPrefix "BANDWIDTH=" s with
  | Some r =>
      match fst (Js.span Js.isDigit r) with
      | EmptyString => None
      | digits => Some digits
      end
  | None => None
  end.

(** [line.match(/BANDWIDTH=(\d+)/)]: the first group of the leftmost
    match. *)
Fixpoint matchBandwidth (line : string) : option string :=
  match matchBandwidthAt line, line with
  | Some digits, _ => Some digits
  | None, EmptyString => None
  | None, String _ line' => matchBandwidth line'
  end.

(** The two variables of the scan *)
Record Selection := {
  highestBandwidth : Js.number;
  selectedStreamUrl : string;
}.

Definition undefinedStartsWith : JsError :=
  TypeError "Cannot read properties of undefined (reading 'startsWith')".

(** The body of the scan at index [i].  [lines[i + 1]] is [undefined] past
    the end, and [resolveUrl] then fails on [url.startsWith]. *)
Definition selectStep (lines : list string) (baseUrl : string) (i : nat)
    (st : Selection) : Throws Selection :=
  match lines !! i with
  | None => Ok st
  | Some line =>
      if Js.includes line STREAM_INF then
        match matchBandwidth line with
        | Some digits =>
            let bandwidth := Js.parseInt digits in
            if Js.gt bandwidth (highestBandwidth st) then
              match lines !! (i + 1)%nat with
              | Some streamUrl =>
                  Ok {| highestBandwidth := bandwidth;
                        selectedStreamUrl := resolveUrl streamUrl baseUrl |}
              | None => Throw undefinedStartsWith
              end
            else Ok st
        | None => Ok st
        end
      else Ok st
  end.

(** [n] iterations of [for (let i = ...; ...; i++)] from index [i] *)
Fixpoint selectLoop (n : nat) (lines : list string) (baseUrl : string)
    (i : nat) (st : Selection) : Throws Selection :=
  match n with
  | O => Ok st
  | S n' =>
      match selectStep lines baseUrl i st with
      | inl st' => selectLoop n' lines baseUrl (S i) st'
      | inr e => Throw e
      end
  end.

Definition extractHighestQualityStream (playlist baseUrl : string)
    : Throws string :=
  let lines := Js.split newline playlist in
  match selectLoop (length lines) lines baseUrl 0
          {| highestBandwidth := Js.Num 0; selectedStreamUrl := "" |} with
  | inl st => Ok (selectedStreamUrl st)
  | inr e => Throw e
  end.

(** ** The transport *)

Record Response := {
  status : nat;
  statusText : string;
  body : string;
}.

(** [response.ok] *)
Definition ok (r : Response) : bool :=
  ((200 <=? status r) && (status r <=? 299))%nat.

Inductive FetchOutcome :=
| Responds (r : Response)
| Rejects (reason : string).

Definition Transport := string -> FetchOutcome.

Definition fetchText (fetch : Transport) (url : string) : Throws string :=
  match fetch url with
  | Rejects reason => Throw (Rejection reason)
  | Responds response =>
      if negb (ok response) then
        Throw (Error ("Failed to fetch " +:+ url +:+ ": "
                      +:+ Js.ofNat (status response) +:+ " "
                      +:+ statusText response))
      else Ok (body response)
  end.

Definition downloadSegment (fetch : Transport) (url : string) : Throws string :=
  match fetch url with
  | Rejects reason => Throw (Rejection reason)
  | Responds response =>
      if negb (ok response) then
        Throw (Error ("Failed to fetch segment " +:+ url +:+ ": "
                      +:+ Js.ofNat (status response) +:+ " "
                      +:+ statusText response))
      else Ok (body response)
  end.

(** ** Promises *)

(** The order in which the promises of a batch settle: given the start index
    of the batch and its promises tagged with their positions, the same
    promises in settling order. *)
Definition Order (A : Type) : Type :=
  Js.number -> list (nat * Throws A) -> list (nat * Throws A).

(** [Promise.all] reacting to one settlement after the other: a fulfilled
    promise stores its value at its own position, the first rejection
    rejects the whole. *)
Fixpoint settleAll {A} (settled : list (nat * Throws A))
    (values : list (option A)) : Throws (list (option A)) :=
  match settled with
  | [] => Ok values
  | (k, inl v) :: rest => settleAll rest (<[k := Some v]> values)
  | (_, inr e) :: _ => Throw e
  end.

Fixpoint allFilled {A} (values : list (option A)) : option (list A) :=
  match values with
  | [] => Some []
  | Some v :: rest =>
      match allFilled rest with
      | Some vs => Some (v :: vs)
      | None => None
      end
  | None :: _ => None
  end.

(** [await Promise.all(promises)]; [None] when a position is never filled,
    in which case the [await] never returns. *)
Definition promiseAll {A} (settling : list (nat * Throws A) -> list (nat * Throws A))
    (promises : list (Throws A)) : option (Throws (list A)) :=
  match settleAll (settling (imap pair promises))
          (replicate (length promises) None) with
  | inr e => Some (Throw e)
  | inl values =>
      match allFilled values with
      | Some vs => Some (Ok vs)
      | None => None
      end
  end.

(** ** The output file, the progress bar and the trace *)

Inductive Event :=
| Issued (index : Js.number) (url : string)   (* [fetch(url)] called *)
| Wrote (index : Js.number) (data : string)   (* [file.write(data)] *)
| Closed.                                     (* [file.close()] *)

Record World := {
  content : string;      (* bytes of the output file *)
  closed : bool;         (* [file.close()] has been called *)
  progress : nat;        (* value of the progress bar *)
  trace : list Event;    (* oldest first *)
}.

(** Computations over the world that may throw or never return *)
Definition M (A : Type) : Type := World -> option (Throws A * World).

Definition ret {A} (a : A) : M A := fun w => Some (Ok a, w).
Definition throw {A} (e : JsError) : M A := fun w => Some (Throw e, w).
Definition diverge {A} : M A := fun _ => None.
Definition lift {A} (r : Throws A) : M A := fun w => Some (r, w).
Definition effect (f : World -> World) : M unit := fun w => Some (Ok tt, f w).

Definition bind {A B} (m : M A) (k : A -> M B) : M B :=
  fun w =>
    match m w with
    | None => None
    | Some (inl a, w') => k a w'
    | Some (inr e, w') => Some (Throw e, w')
    end.

(** [try { m } finally { f }], for a [finally] block that does not throw *)
Definition tryFinally {A} (m : M A) (f : World -> World) : M A :=
  fun w =>
    match m w with
    | None => None
    | Some (r, w') => Some (r, f w')
    end.

(** [try { m } catch (error) { h(error) }] *)
Definition tryCatch {A} (m : M A) (h : JsError -> M A) : M A :=
  fun w =>
    match m w with
    | None => None
    | Some (inl a, w') => Some (Ok a, w')
    | Some (inr e, w') => h e w'
    end.

Notation "'let!' x ':=' m 'in' k" := (bind m (fun x => k))
  (at level 10, x name, m at level 100, k at level 200).
Notation "'do!' m 'in' k" := (bind m (fun _ => k))
  (at level 10, m at level 100, k at level 200).

(** [Deno.open(outputFile, { write, create, truncate })] and a new bar *)
Definition openFile (w : World) : World :=
  {| content := ""; closed := false; progress := 0; trace := trace w |}.

(** [file.write(data); bar.add(1)] *)
Definition writeSegment (index : Js.number) (data : string) (w : World) : World :=
  {| content := content w +:+ data; closed := closed w;
     progress := S (progress w); trace := trace w ++ [Wrote index data] |}.

Definition closeFile (w : World) : World :=
  {| content := content w; closed := true;
     progress := progress w; trace := trace w ++ [Closed] |}.

Definition issue (index : Js.number) (url : string) (w : World) : World :=
  {| content := content w; closed := closed w;
     progress := progress w; trace := trace w ++ [Issued index url] |}.

(** ** The batched ordered downloader *)

(** The loop that collects the segment URLs: [segments.push(...)] for every
    line that does not start with [#] and is not blank. *)
Definition extractSegments (playlist baseUrl : string) : list string :=
  let lines := Js.split newline playlist in
  foldl (fun segments line =>
           if negb (Js.startsWith line "#")
              && (0 <? String.length (Js.trim line))%nat
           then segments ++ [resolveUrl line baseUrl]
           else segments)
        [] lines.

(** One element of [results] *)
Record SegmentResult := {
  index : Js.number;
  data : string;
}.

(** The comparator [(a, b) => a.index - b.index] asks for [a] after [b]
    when it is positive. *)
Definition sub (a b : Js.number) : Js.number :=
  match a, b with
  | Js.Num x, Js.Num y => Js.Num (x - y)
  | _, _ => Js.NaN
  end.

Definition after (a b : SegmentResult) : bool :=
  Js.gt (sub (index a) (index b)) (Js.Num 0).

Fixpoint insertResult (x : SegmentResult) (l : list SegmentResult)
    : list SegmentResult :=
  match l with
  | [] => [x]
  | y :: l' => if after x y then y :: insertResult x l' else x :: l
  end.

(** [results.sort(...)]: a stable sort *)
Fixpoint sortResults (l : list SegmentResult) : list SegmentResult :=
  match l with
  | [] => []
  | x :: l' => insertResult x (sortResults l')
  end.

(** The promises of a batch: [batch.map(async (segmentUrl, index) => ...)] *)
Definition batchPromises (fetch : Transport) (i : Js.number)
    (batch : list string) : list (Throws SegmentResult) :=
  imap (fun index segmentUrl =>
          let batchIndex := Js.add i (Js.Num (Z.of_nat index)) in
          match downloadSegment fetch segmentUrl with
          | inl d => Ok {| index := batchIndex; data := d |}
          | inr e => Throw e
          end)
       batch.

(** Every promise calls [fetch] when it is created, in the order of the
    batch. *)
Definition issueBatch (i : Js.number) (batch : list string) (w : World) : World :=
  foldl (fun w '(index, segmentUrl) =>
           issue (Js.add i (Js.Num (Z.of_nat index))) segmentUrl w)
        w (imap pair batch).

Definition writeResults (results : list SegmentResult) (w : World) : World :=
  foldl (fun w result => writeSegment (index result) (data result) w) w results.

(** The body of the batch loop *)
Definition batchStep (fetch : Transport) (order : Order SegmentResult)
    (segments : list string) (concurrency i : Js.number) : M unit :=
  let batch := Js.slice segments i (Js.add i concurrency) in
  let promises := batchPromises fetch i batch in
  do! effect (issueBatch i batch) in
  let! results := (fun w =>
                     match promiseAll (order i) promises with
                     | Some r => Some (r, w)
                     | None => None
                     end) in
  let results := sortResults results in
  effect (writeResults results).

(** [for (let i = ...; i < segments.length; i += concurrency)] from index
    [i]; each iteration uses one unit of fuel. *)
Fixpoint batchLoop (fuel : nat) (fetch : Transport) (order : Order SegmentResult)
    (segments : list string) (concurrency i : Js.number) : M unit :=
  if Js.lt i (Js.Num (Z.of_nat (length segments))) then
    match fuel with
    | O => diverge
    | S fuel' =>
        do! batchStep fetch order segments concurrency i in
        batchLoop fuel' fetch order segments concurrency (Js.add i concurrency)
    end
  else ret tt.

(** The [finally] block closes the file ([bar.end()] leaves the world as it
    is). *)
Definition processMediaPlaylist (fuel : nat) (fetch : Transport)
    (order : Order SegmentResult) (playlist baseUrl outputFile : string)
    (concurrency : Js.number) : M unit :=
  let segments := extractSegments playlist baseUrl in
  do! effect openFile in
  tryFinally
    (batchLoop fuel fetch order segments concurrency (Js.Num 0))
    closeFile.

(** ** The download operation *)

(** [concurrency] is [None] when the caller leaves the argument out.  The
    recursion on a master playlist uses one unit of fuel.  The [catch] block
    logs the error and throws it again; console output and [ensureDir]
    leave the world of the model as it is. *)
Fixpoint downloadM3U8 (fuel : nat) (fetch : Transport)
    (order : Order SegmentResult) (url outputFile : string)
    (concurrency : option Js.number) {struct fuel} : M unit :=
  let concurrency := default (Js.Num 5) concurrency in
  tryCatch
    (let! mainPlaylist := lift (fetchText fetch url) in
     if Js.includes mainPlaylist STREAM_INF then
       let! streamUrl := lift (extractHighestQualityStream mainPlaylist url) in
       match fuel with
       | O => diverge
       | S fuel' =>
           downloadM3U8 fuel' fetch order streamUrl outputFile (Some concurrency)
       end
     else
       processMediaPlaylist fuel fetch order mainPlaylist url outputFile
         concurrency)
    (fun error => throw error).

(** ** The command line *)

(** [args[2] ? parseInt(args[2]) : 10]: the empty string is falsy too. *)
Definition cliConcurrency (args : list string) : Js.number :=
  match args !! 2%nat with
  | Some EmptyString | None => Js.Num 10
  | Some arg => Js.parseInt arg
  end.

Inductive Exit := Finished | ExitCode (code : nat).

(** The block under [import.meta.main] *)
Definition main (fuel : nat) (fetch : Transport) (order : Order SegmentResult)
    (args : list string) (w : World) : option (Exit * World) :=
  if (length args <? 2)%nat then Some (ExitCode 1, w)
  else
    let m3u8Url := default "" (args !! 0%nat) in
    let outputFile := default "" (args !! 1%nat) in
    let concurrency := cliConcurrency args in
    match downloadM3U8 fuel fetch order m3u8Url outputFile (Some concurrency) w with
    | None => None
    | Some (inl _, w') => Some (Finished, w')
    | Some (inr _, w') => Some (ExitCode 1, w')
    end.

(** * Vocabulary of the properties *)

(** Every character of [s] satisfies [p] *)
Fixpoint every (p : ascii -> bool) (s : string) : bool :=
  match s with
  | EmptyString => true
  | String x s' => p x && every p s'
  end.

(** [s] has no occurrence of the character [c] *)
Definition lacks (c : ascii) (s : string) : bool :=
  every (fun x => negb (Ascii.eqb x c)) s.

(** The test of the extraction loop on one line *)
Definition segmentLine (line : string) : bool :=
  negb (Js.startsWith line "#") && (0 <? String.length (Js.trim line))%nat.

Definition CR : string := String (ascii_of_nat 13) "".
Definition LF : string := String newline "".

(** The bandwidth the scan reads on a line, when the line is a stream-info
    tag with a [BANDWIDTH] attribute *)
Definition variantBandwidth (line : string) : option Js.number :=
  if Js.includes line STREAM_INF
  then Js.parseInt <$> matchBandwidth line
  else None.

(** [i] is the first line that carries the greatest bandwidth [bw]. *)
Definition firstMaximum (lines : list string) (i : nat) (bw : Z) : Prop :=
  (exists line, lines !! i = Some line
                /\ variantBandwidth line = Some (Js.Num bw))
  /\ forall j l b, lines !! j = Some l ->
       variantBandwidth l = Some (Js.Num b) ->
       b <= bw /\ ((j < i)%nat -> b < bw).

Definition twoVariants : string :=
  "#EXTM3U" +:+ LF
  +:+ "#EXT-X-STREAM-INF:BANDWIDTH=800000" +:+ LF +:+ "low.m3u8" +:+ LF
  +:+ "#EXT-X-STREAM-INF:BANDWIDTH=2400000" +:+ LF +:+ "high.m3u8" +:+ LF
  +:+ "#EXT-X-STREAM-INF:BANDWIDTH=2400000" +:+ LF +:+ "other.m3u8".

Definition zeroBandwidth : string :=
  "#EXTM3U" +:+ LF +:+ "#EXT-X-STREAM-INF:BANDWIDTH=0" +:+ LF +:+ "low.m3u8".

Definition noBandwidth : string :=
  "#EXTM3U" +:+ LF
  +:+ "#EXT-X-STREAM-INF:RESOLUTION=640x360" +:+ LF +:+ "low.m3u8".

Definition trailingTag : string :=
  "#EXTM3U" +:+ LF
  +:+ "#EXT-X-STREAM-INF:BANDWIDTH=800000" +:+ LF +:+ "low.m3u8" +:+ LF
  +:+ "#EXT-X-STREAM-INF:BANDWIDTH=2400000".

(** The transport answers [url] with a 2xx status. *)
Definition fetchOk (fetch : Transport) (url : string) : bool :=
  match fetch url with
  | Responds r => ok r
  | Rejects _ => false
  end.

(** The bytes the transport serves for [url] *)
Definition payload (fetch : Transport) (url : string) : string :=
  match fetch url with
  | Responds r => body r
  | Rejects _ => ""
  end.

(** The events of one batch that starts at index [start]: its fetches are
    issued, then its segments are written. *)
Definition issues (start : nat) (batch : list string) : list Event :=
  imap (fun j url => Issued (Js.Num (Z.of_nat (start + j))) url) batch.

Definition writes (fetch : Transport) (start : nat) (batch : list string)
    : list Event :=
  imap (fun j url => Wrote (Js.Num (Z.of_nat (start + j))) (payload fetch url))
       batch.

Definition payloads (fetch : Transport) (urls : list string) : string :=
  String.concat "" (payload fetch <$> urls).

(** The world after a batch that succeeds *)
Definition runBatch (fetch : Transport) (start : nat) (batch : list string)
    (w : World) : World :=
  {| content := content w +:+ payloads fetch batch;
     closed := closed w;
     progress := progress w + length batch;
     trace := trace w ++ issues start batch ++ writes fetch start batch |}.

(** The world once the fetches of a batch are issued *)
Definition runIssues (start : nat) (batch : list string) (w : World) : World :=
  {| content := content w; closed := closed w; progress := progress w;
     trace := trace w ++ issues start batch |}.

(** The results of a batch whose fetches all succeed, in batch order *)
Definition batchResults (fetch : Transport) (start : nat) (batch : list string)
    : list SegmentResult :=
  imap (fun j url => {| index := Js.Num (Z.of_nat (start + j));
                        data := payload fetch url |}) batch.

(** The partition of a list into consecutive batches of [c] elements, the
    last one possibly shorter *)
Fixpoint chunksFuel {A} (fuel c : nat) (l : list A) : list (list A) :=
  match fuel, l with
  | S fuel', _ :: _ => take c l :: chunksFuel fuel' c (drop c l)
  | _, _ => []
  end.

Definition chunks {A} (c : nat) (l : list A) : list (list A) :=
  chunksFuel (length l) c l.

(** The world after a run of batches that succeed, the first one starting
    at index [start] *)
Fixpoint runBatches (fetch : Transport) (start : nat)
    (batches : list (list string)) (w : World) : World :=
  match batches with
  | [] => w
  | b :: bs => runBatches fetch (start + length b) bs (runBatch fetch start b w)
  end.

(** The events of such a run: batch after batch, the fetches of the batch
    followed by its writes *)
Fixpoint batchesTrace (fetch : Transport) (start : nat)
    (batches : list (list string)) : list Event :=
  match batches with
  | [] => []
  | b :: bs =>
      issues start b ++ writes fetch start b
      ++ batchesTrace fetch (start + length b) bs
  end.

Definition isWrote (e : Event) : bool :=
  match e with Wrote _ _ => true | _ => false end.

(** The error a failed fetch of [url] raises in [downloadSegment] *)
Definition fetchError (fetch : Transport) (url : string) : JsError :=
  match fetch url with
  | Responds r =>
      Error ("Failed to fetch segment " +:+ url +:+ ": "
             +:+ Js.ofNat (status r) +:+ " " +:+ statusText r)
  | Rejects reason => Rejection reason
  end.

Definition mediaPlaylist : string :=
  "#EXTM3U" +:+ LF +:+ "#EXTINF:4.0," +:+ LF +:+ "s0.ts" +:+ LF
  +:+ "#EXTINF:4.0," +:+ LF +:+ "s1.ts" +:+ LF
  +:+ "#EXTINF:4.0," +:+ LF +:+ "s2.ts" +:+ LF
  +:+ "#EXTINF:4.0," +:+ LF +:+ "s3.ts" +:+ LF
  +:+ "#EXTINF:4.0," +:+ LF +:+ "s4.ts" +:+ LF
  +:+ "#EXTINF:4.0," +:+ LF +:+ "s5.ts" +:+ LF
  +:+ "#EXT-X-ENDLIST" +:+ LF.

Definition mediaUrl : string := "http://h/v/p.m3u8".

(** A transport that serves the playlist and, for any other URL, the URL
    between brackets *)
Definition serving : Transport := fun url =>
  if String.eqb url mediaUrl
  then Responds {| status := 200; statusText := "OK"; body := mediaPlaylist |}
  else Responds {| status := 200; statusText := "OK";
                   body := "<" +:+ url +:+ ">" |}.

(** The same, except that the fourth segment is missing *)
Definition missing : Transport := fun url =>
  if String.eqb url "http://h/v/s3.ts"
  then Responds {| status := 404; statusText := "Not Found"; body := "" |}
  else serving url.

(** The same, except that the fetch of the fourth segment is rejected *)
Definition refusing : Transport := fun url =>
  if String.eqb url "http://h/v/s3.ts"
  then Rejects "connection refused"
  else serving url.

(** The fetches of a batch settle last first. *)
Definition lastFirst : Order SegmentResult := fun _ l => rev l.

Definition emptyWorld : World :=
  {| content := ""; closed := false; progress := 0; trace := [] |}.

(** [e.name] of the errors that the program or the language raises; what
    the transport rejects with is the transport's own. *)
Definition errorName (e : JsError) : option string :=
  match e with
  | Error _ => Some "Error"
  | TypeError _ => Some "TypeError"
  | Rejection _ => None
  end.

(** The error of C6 as stated: an error that carries the failing URL *)
Definition namesUrl (e : JsError) (url : string) : Prop :=
  exists rest, e = Error ("Failed to fetch segment " +:+ url +:+ rest).

(** ** Vocabulary of the further properties *)

(** The URL begins with [http://] or [https://]. *)
Definition isAbsolute (url : string) : bool :=
  Js.startsWith url "http://" || Js.startsWith url "https://".

(** The bytes that the writes of a trace put in the file *)
Fixpoint written (events : list Event) : string :=
  match events with
  | [] => ""
  | Wrote _ d :: rest => d +:+ written rest
  | _ :: rest => written rest
  end.

Definition masterUrl : string := "http://h/master.m3u8".

(** A master playlist whose best variant is the media playlist at
    [mediaUrl] *)
Definition masterPlaylist : string :=
  "#EXTM3U" +:+ LF
  +:+ "#EXT-X-STREAM-INF:BANDWIDTH=800000" +:+ LF +:+ "low/p.m3u8" +:+ LF
  +:+ "#EXT-X-STREAM-INF:BANDWIDTH=2400000" +:+ LF +:+ "v/p.m3u8" +:+ LF.

(** [serving], with the master playlist at [masterUrl] *)
Definition redirecting : Transport := fun url =>
  if String.eqb url masterUrl
  then Responds {| status := 200; statusText := "OK"; body := masterPlaylist |}
  else serving url.

(** A master playlist whose only variant is itself *)
Definition loopingPlaylist : string :=
  "#EXTM3U" +:+ LF
  +:+ "#EXT-X-STREAM-INF:BANDWIDTH=800000" +:+ LF +:+ "master.m3u8" +:+ LF.

Definition looping : Transport := fun url =>
  Responds {| status := 200; statusText := "OK"; body := loopingPlaylist |}.

(** A transport that answers 503 to everything *)
Definition unavailable : Transport := fun url =>
  Responds {| status := 503; statusText := "Service Unavailable"; body := "" |}.

(** A playlist without segment lines *)
Definition commentsOnly : string :=
  "#EXTM3U" +:+ LF +:+ "#EXT-X-VERSION:3" +:+ LF +:+ "  " +:+ LF
  +:+ "#EXT-X-ENDLIST" +:+ LF.

(** [w'] is [w] after [events]: the file is as open as it was, the events
    are added to the trace and none of them closes the file, the writes
    among them are appended to the file, and the bar advances by one for
    each write. *)
Definition extends (w w' : World) (events : list Event) : Prop :=
  closed w' = closed w
  /\ trace w' = trace w ++ events
  /\ (Closed ∉ events)
  /\ content w' = content w +:+ written events
  /\ progress w' = (progress w + length (List.filter isWrote events))%nat.

(** The selection comes from a variant of the playlist: it is the initial
    one, or the bandwidth of some tag line, positive, together with the
    resolved line that follows the tag. *)
Definition selectedFrom (lines : list string) (baseUrl : string)
    (st : Selection) : Prop :=
  st = {| highestBandwidth := Js.Num 0; selectedStreamUrl := "" |}
  \/ exists i line bw uri,
       lines !! i = Some line
       /\ variantBandwidth line = Some (Js.Num bw) /\ 0 < bw
       /\ lines !! (i + 1)%nat = Some uri
       /\ st = {| highestBandwidth := Js.Num bw;
                  selectedStreamUrl := resolveUrl uri baseUrl |}.

(** Every write of [events] is of a fetched segment: a fetch with the same
    index was issued before it ([issued] holds those issued so far) and
    that fetch yields the data written. *)
Fixpoint fetchedBefore (fetch : Transport) (issued : list (Js.number * string))
    (events : list Event) : Prop :=
  match events with
  | [] => True
  | Issued i url :: rest => fetchedBefore fetch ((i, url) :: issued) rest
  | Wrote i d :: rest =>
      (exists url, (i, url) ∈ issued /\ downloadSegment fetch url = inl d)
      /\ fetchedBefore fetch issued rest
  | Closed :: rest => fetchedBefore fetch issued rest
  end.

(** * Properties *)

(** ** Strings *)

Lemma append_assoc (a b c : string) : (a +:+ b) +:+ c = a +:+ b +:+ c.
Proof. induction a as [|x a IH]; simpl; [reflexivity | f_equal; apply IH]. Qed.

Lemma append_nil_r (a : string) : a +:+ "" = a.
Proof. induction a as [|x a IH]; simpl; [reflexivity | f_equal; apply IH]. Qed.

Lemma split_nonempty sep s : Js.split sep s <> [].
Proof.
  destruct s as [|c s]; simpl; [done |].
  destruct (Ascii.eqb c sep); [done |].
  by destruct (Js.split sep s).
Qed.

Lemma split_lacks sep s : lacks sep s = true -> Js.split sep s = [s].
Proof.
  unfold lacks. induction s as [|c s IH]; simpl; [done |].
  destruct (Ascii.eqb c sep); simpl; [done |].
  intros H. by rewrite IH.
Qed.

Lemma split_app sep a b :
  Js.split sep (a +:+ String sep b) = Js.split sep a ++ Js.split sep b.
Proof.
  induction a as [|x a IH]; simpl.
  - by rewrite Ascii.eqb_refl.
  - destruct (Ascii.eqb x sep); [by rewrite IH |].
    rewrite IH.
    pose proof (split_nonempty sep a) as Hne.
    by destruct (Js.split sep a).
Qed.

Lemma join_split sep s : Js.join (String sep "") (Js.split sep s) = s.
Proof.
  unfold Js.join.
  induction s as [|c s IH]; simpl; [reflexivity |].
  pose proof (split_nonempty sep s) as Hs.
  destruct (Js.split sep s) as [|w ws] eqn:E; [done |].
  destruct (Ascii.eqb_spec c sep) as [-> | Hne]; simpl in *.
  - by rewrite IH.
  - destruct ws; simpl in *; by rewrite <- IH.
Qed.

Lemma span_app p a c b :
  every p a = true -> p c = false ->
  Js.span p (a +:+ String c b) = (a, String c b).
Proof.
  induction a as [|x a IH]; simpl; intros Ha Hc.
  - by rewrite Hc.
  - apply andb_true_iff in Ha as [Hx Ha]. by rewrite Hx, IH.
Qed.

Lemma concat_cons p ps : String.concat "" (p :: ps) = p +:+ String.concat "" ps.
Proof. destruct ps; simpl; [by rewrite append_nil_r | reflexivity]. Qed.

Lemma concat_app ps qs :
  String.concat "" (ps ++ qs) = String.concat "" ps +:+ String.concat "" qs.
Proof.
  induction ps as [|p ps IH]; [reflexivity |].
  change ((p :: ps) ++ qs) with (p :: (ps ++ qs)).
  by rewrite !concat_cons, IH, append_assoc.
Qed.

Lemma pop_snoc {A} (l : list A) x : Js.pop (l ++ [x]) = l.
Proof. apply removelast_last. Qed.

Lemma lacks_app c a b : lacks c (a +:+ b) = lacks c a && lacks c b.
Proof.
  unfold lacks. induction a as [|x a IH]; simpl; [reflexivity |].
  by rewrite IH, andb_assoc.
Qed.

(** A string with a [c] in it splits at its last [c]. *)
Lemma last_occurrence c s :
  lacks c s = false ->
  exists a b, s = a +:+ String c b /\ lacks c b = true.
Proof.
  induction s as [|x s IH]; [done |].
  destruct (lacks c s) eqn:Hs.
  - unfold lacks in *. simpl. rewrite Hs, andb_true_r.
    intros Hx. apply negb_false_iff, Ascii.eqb_eq in Hx as ->.
    by exists "", s.
  - intros _. destruct (IH eq_refl) as (a & b & -> & Hb).
    by exists (String x a), b.
Qed.

(** ** The URL resolver *)

(** The [baseDir] of [resolveUrl] is the base up to its last [/]. *)
Lemma baseDir_last_slash dir file :
  lacks "/" file = true ->
  Js.join "/" (Js.pop (Js.split "/" (dir +:+ "/" +:+ file))) = dir.
Proof.
  intros Hfile.
  change (dir +:+ "/" +:+ file) with (dir +:+ String "/" file).
  rewrite split_app, (split_lacks _ file Hfile), pop_snoc.
  apply join_split.
Qed.

Lemma matchDomain_base scheme host path :
  scheme = "http" \/ scheme = "https" ->
  host <> "" -> lacks "/" host = true ->
  matchDomain (scheme +:+ "://" +:+ host +:+ "/" +:+ path)
  = Some (scheme +:+ "://" +:+ host).
Proof.
  intros Hscheme Hhost Hlacks.
  assert (Hspan : Js.span (fun c => negb (Ascii.eqb c "/")) (host +:+ String "/" path)
                  = (host, String "/" path)) by (by apply span_app).
  destruct Hscheme as [-> | ->]; unfold matchDomain; simpl;
    rewrite Hspan; by destruct host.
Qed.

Lemma root_relative_not_absolute reference :
  Js.startsWith reference "/" = true ->
  Js.startsWith reference "http://" || Js.startsWith reference "https://" = false.
Proof.
  destruct reference as [|c r]; simpl; [discriminate |].
  destruct (Ascii.eqb_spec "/" c) as [<- | ]; [reflexivity | discriminate].
Qed.

(** C5.  For a base URL [scheme://host/path] with scheme http or https:
    a reference that begins with [http://] or [https://] is returned
    unchanged; a reference that begins with [/] is appended to
    [scheme://host], the base up to the first [/] after the authority; any
    other reference is appended, after a [/], to the base cut at its last
    [/] (that [/] excluded, so that it is not doubled).  The three test
    vectors of the specification hold. *)
Theorem resolveUrl_cases (reference scheme host path : string) :
  scheme = "http" \/ scheme = "https" ->
  host <> "" -> lacks "/" host = true ->
  let baseUrl := scheme +:+ "://" +:+ host +:+ "/" +:+ path in
  (Js.startsWith reference "http://" || Js.startsWith reference "https://" = true ->
   resolveUrl reference baseUrl = reference)
  /\ (Js.startsWith reference "/" = true ->
      resolveUrl reference baseUrl = scheme +:+ "://" +:+ host +:+ reference)
  /\ (Js.startsWith reference "http://" || Js.startsWith reference "https://" = false ->
      Js.startsWith reference "/" = false ->
      exists dir file,
        baseUrl = dir +:+ "/" +:+ file /\ lacks "/" file = true
        /\ resolveUrl reference baseUrl = dir +:+ "/" +:+ reference)
  /\ resolveUrl "seg1.ts" "http://h/dir/a.m3u8" = "http://h/dir/seg1.ts"
  /\ resolveUrl "/x/seg1.ts" "http://h/dir/a.m3u8" = "http://h/x/seg1.ts"
  /\ resolveUrl "http://other/s.ts" "http://h/dir/a.m3u8" = "http://other/s.ts".
Proof.
  intros Hscheme Hhost Hlacks baseUrl.
  split; [| split; [| split]].
  - intros Habs. unfold resolveUrl. by rewrite Habs.
  - intros Hroot. unfold resolveUrl.
    rewrite (root_relative_not_absolute _ Hroot), Hroot.
    subst baseUrl. rewrite matchDomain_base by done.
    by rewrite !append_assoc.
  - intros Habs Hroot.
    assert (Hslash : lacks "/" baseUrl = false).
    { subst baseUrl. rewrite !lacks_app. simpl.
      by rewrite !andb_false_r. }
    destruct (last_occurrence _ _ Hslash) as (dir & file & Hbase & Hfile).
    exists dir, file. split; [exact Hbase | split; [exact Hfile |]].
    unfold resolveUrl. rewrite Habs, Hroot, Hbase.
    change (dir +:+ String "/" file) with (dir +:+ "/" +:+ file).
    by rewrite baseDir_last_slash.
  - repeat split; reflexivity.
Qed.

Lemma resolveUrl_cases_witness :
  resolveUrl "seg1.ts" ("http" +:+ "://" +:+ "h" +:+ "/" +:+ "dir/a.m3u8")
  = "http://h/dir" +:+ "/" +:+ "seg1.ts".
Proof.
  destruct (resolveUrl_cases "seg1.ts" "http" "h" "dir/a.m3u8")
    as (_ & _ & Hrel & _); [by left | done | reflexivity |].
  destruct (Hrel eq_refl eq_refl) as (dir & file & Hbase & Hfile & ->).
  f_equal.
  assert (Hdir : Js.join "/" (Js.pop (Js.split "/" (dir +:+ "/" +:+ file))) = dir)
    by (by apply baseDir_last_slash).
  rewrite <- Hbase in Hdir. rewrite <- Hdir. reflexivity.
Defined.

(** ** Segment extraction *)

Lemma collect_segments baseUrl (lines acc : list string) :
  foldl (fun segments line =>
           if negb (Js.startsWith line "#")
              && (0 <? String.length (Js.trim line))%nat
           then segments ++ [resolveUrl line baseUrl]
           else segments)
        acc lines
  = acc ++ map (fun line => resolveUrl line baseUrl) (List.filter segmentLine lines).
Proof.
  revert acc. induction lines as [|line lines IH]; intros acc; simpl.
  - by rewrite app_nil_r.
  - rewrite IH. fold (segmentLine line).
    destruct (segmentLine line); simpl; [| reflexivity].
    by rewrite <- app_assoc.
Qed.

Lemma extractSegments_filter playlist baseUrl :
  extractSegments playlist baseUrl
  = map (fun line => resolveUrl line baseUrl)
        (List.filter segmentLine (Js.split newline playlist)).
Proof. unfold extractSegments. by rewrite collect_segments. Qed.

Lemma resolveUrl_suffix line baseUrl :
  exists pre, resolveUrl line baseUrl = pre +:+ line.
Proof.
  unfold resolveUrl.
  destruct (_ || _).
  - by exists "".
  - destruct (Js.startsWith line "/").
    + destruct (matchDomain baseUrl) as [domain|]; [by exists domain | by exists ""].
    + eexists. symmetry. apply append_assoc.
Qed.

(** C9.  The segment list is the list of the lines that do not start with
    [#] and are not blank once trimmed, each resolved as it stands in the
    playlist: the resolved URL ends with the whole raw line, trailing white
    space included.  With CRLF line ends the carriage return stays in the
    URL. *)
Theorem extractSegments_raw_lines (playlist baseUrl : string) :
  extractSegments playlist baseUrl
  = map (fun line => resolveUrl line baseUrl)
        (List.filter segmentLine (Js.split newline playlist))
  /\ (forall stem space : string,
        exists pre, resolveUrl (stem +:+ space) baseUrl = pre +:+ stem +:+ space)
  /\ extractSegments ("#EXTM3U" +:+ CR +:+ LF +:+ "s0.ts" +:+ CR +:+ LF
                      +:+ "s1.ts" +:+ CR +:+ LF) "http://h/d/p.m3u8"
     = ["http://h/d/s0.ts" +:+ CR; "http://h/d/s1.ts" +:+ CR].
Proof.
  split; [apply extractSegments_filter | split].
  - intros stem space. apply resolveUrl_suffix.
  - reflexivity.
Qed.

(** ** Parsing the bandwidth *)

Lemma span_every p s : every p (fst (Js.span p s)) = true.
Proof.
  induction s as [|c s IH]; simpl; [reflexivity |].
  destruct (p c) eqn:Hc; [| reflexivity].
  destruct (Js.span p s) as [a b]. simpl in *. by rewrite Hc, IH.
Qed.

Lemma matchBandwidthAt_digits s digits :
  matchBandwidthAt s = Some digits ->
  digits <> "" /\ every Js.isDigit digits = true.
Proof.
  unfold matchBandwidthAt.
  destruct (Js.stripPrefix "BANDWIDTH=" s) as [r|]; [| discriminate].
  pose proof (span_every Js.isDigit r) as Hr.
  destruct (fst (Js.span Js.isDigit r)) as [|x d]; [discriminate |].
  intros [= <-]. split; [discriminate | exact Hr].
Qed.

Lemma matchBandwidth_digits line digits :
  matchBandwidth line = Some digits ->
  digits <> "" /\ every Js.isDigit digits = true.
Proof.
  induction line as [|c line IH].
  - change (matchBandwidth "") with
      (match matchBandwidthAt "" with Some d => Some d | None => None end).
    destruct (matchBandwidthAt "") eqn:E; [| discriminate].
    intros [= <-]. by apply (matchBandwidthAt_digits "").
  - change (matchBandwidth (String c line)) with
      (match matchBandwidthAt (String c line) with
       | Some d => Some d
       | None => matchBandwidth line
       end).
    destruct (matchBandwidthAt (String c line)) eqn:E; [| exact IH].
    intros [= <-]. by apply (matchBandwidthAt_digits (String c line)).
Qed.

Lemma isDigit_range c :
  Js.isDigit c = true -> (48 <= nat_of_ascii c <= 57)%nat.
Proof.
  unfold Js.isDigit. intros H. apply andb_true_iff in H as [H1 H2].
  apply Nat.leb_le in H1, H2. lia.
Qed.

Lemma isDigit_not_space c : Js.isDigit c = true -> Js.isWhiteSpace c = false.
Proof.
  intros H. apply isDigit_range in H. unfold Js.isWhiteSpace.
  destruct (Nat.leb_spec 9 (nat_of_ascii c)), (Nat.leb_spec (nat_of_ascii c) 13),
    (Nat.eqb_spec (nat_of_ascii c) 32), (Nat.eqb_spec (nat_of_ascii c) 160);
    simpl; try reflexivity; lia.
Qed.

Lemma isDigit_neq c x :
  Js.isDigit c = true -> Js.isDigit x = false -> Ascii.eqb c x = false /\ Ascii.eqb x c = false.
Proof.
  intros Hc Hx. split.
  - destruct (Ascii.eqb_spec c x) as [-> |]; [congruence | reflexivity].
  - destruct (Ascii.eqb_spec x c) as [-> |]; [congruence | reflexivity].
Qed.

Lemma digitVal_digit c :
  Js.isDigit c = true -> exists d, Js.digitVal c = Some d /\ 0 <= d < 10.
Proof.
  intros H. apply isDigit_range in H. unfold Js.digitVal.
  destruct (Z.leb_spec 48 (Z.of_nat (nat_of_ascii c))); [| lia].
  destruct (Z.leb_spec (Z.of_nat (nat_of_ascii c)) 57); [| lia].
  simpl. eexists. split; [reflexivity | lia].
Qed.

Lemma parseDigits_digits s acc :
  every Js.isDigit s = true -> 0 <= default 0 acc ->
  s <> "" \/ acc <> None ->
  exists v, Js.parseDigits 10 s acc = Some v /\ 0 <= v.
Proof.
  revert acc. induction s as [|c s IH]; intros acc Hs Hacc Hne; simpl.
  - destruct Hne as [|Hne]; [done |].
    destruct acc as [v|]; [by exists v | done].
  - simpl in Hs. apply andb_true_iff in Hs as [Hc Hs].
    destruct (digitVal_digit c Hc) as (d & -> & Hd).
    destruct (Z.ltb_spec d 10); [| lia].
    apply IH; [exact Hs | simpl; lia | by right].
Qed.

Lemma stripPrefix_digits (x y : ascii) s :
  Js.isDigit y = false -> every Js.isDigit s = true ->
  Js.stripPrefix (String x (String y "")) s = None.
Proof.
  intros Hy Hs. destruct s as [|c s]; simpl; [reflexivity |].
  destruct (Ascii.eqb x c); [| reflexivity].
  destruct s as [|c2 s]; simpl; [reflexivity |].
  simpl in Hs. apply andb_true_iff in Hs as [_ Hs].
  apply andb_true_iff in Hs as [Hc2 _].
  by destruct (isDigit_neq c2 y Hc2 Hy) as [_ ->].
Qed.

(** [parseInt] of a non-empty string of decimal digits is a natural number. *)
Lemma parseInt_digits digits :
  digits <> "" -> every Js.isDigit digits = true ->
  exists z, Js.parseInt digits = Js.Num z /\ 0 <= z.
Proof.
  intros Hne Hd. destruct digits as [|c r]; [done |].
  pose proof Hd as Hall. simpl in Hd. apply andb_true_iff in Hd as [Hc Hr].
  unfold Js.parseInt.
  replace (Js.trimStart (String c r)) with (String c r)
    by (simpl; by rewrite (isDigit_not_space c Hc)).
  destruct (isDigit_neq c "-" Hc eq_refl) as [-> _].
  destruct (isDigit_neq c "+" Hc eq_refl) as [-> _].
  rewrite (stripPrefix_digits "0" "x" _ eq_refl Hall).
  rewrite (stripPrefix_digits "0" "X" _ eq_refl Hall).
  destruct (parseDigits_digits (String c r) None Hall) as (v & -> & Hv);
    [simpl; lia | by left |].
  exists v. split; [f_equal; lia | exact Hv].
Qed.

Lemma variantBandwidth_natural line n :
  variantBandwidth line = Some n -> exists z, n = Js.Num z /\ 0 <= z.
Proof.
  unfold variantBandwidth. destruct (Js.includes line STREAM_INF); [| discriminate].
  destruct (matchBandwidth line) as [digits|] eqn:E; [| discriminate].
  intros [= <-]. destruct (matchBandwidth_digits _ _ E) as [Hne Hd].
  apply parseInt_digits; assumption.
Qed.

(** ** The variant selector *)

Lemma selectStep_variant lines baseUrl i st line :
  lines !! i = Some line ->
  selectStep lines baseUrl i st
  = match variantBandwidth line with
    | Some bandwidth =>
        if Js.gt bandwidth (highestBandwidth st) then
          match lines !! (i + 1)%nat with
          | Some streamUrl =>
              Ok {| highestBandwidth := bandwidth;
                    selectedStreamUrl := resolveUrl streamUrl baseUrl |}
          | None => Throw undefinedStartsWith
          end
        else Ok st
    | None => Ok st
    end.
Proof.
  intros Hi. unfold selectStep, variantBandwidth. rewrite Hi.
  destruct (Js.includes line STREAM_INF); [| reflexivity].
  by destruct (matchBandwidth line).
Qed.

Lemma selectLoop_add n m lines baseUrl k st :
  selectLoop (n + m) lines baseUrl k st
  = match selectLoop n lines baseUrl k st with
    | inl st' => selectLoop m lines baseUrl (k + n) st'
    | inr e => Throw e
    end.
Proof.
  revert k st. induction n as [|n IH]; intros k st; simpl.
  - by rewrite Nat.add_0_r.
  - destruct (selectStep lines baseUrl k st) as [st'|e]; [| reflexivity].
    rewrite IH. by rewrite Nat.add_succ_r.
Qed.

Section Scan.

Variables (lines : list string) (baseUrl : string) (i : nat) (bw : Z).
Hypothesis Hmax : firstMaximum lines i bw.

(** Before line [i] the running maximum stays below [bw] and every tag that
    raises it has a next line. *)
Lemma selectLoop_before n k st h :
  highestBandwidth st = Js.Num h -> 0 <= h < bw -> (k + n <= i)%nat ->
  exists st' h', selectLoop n lines baseUrl k st = Ok st'
                 /\ highestBandwidth st' = Js.Num h' /\ 0 <= h' < bw.
Proof.
  destruct Hmax as [(line & Hline & _) Hle].
  revert k st h. induction n as [|n IH]; intros k st h Hst Hh Hk; simpl.
  - by exists st, h.
  - assert (Hlen : (i < length lines)%nat) by (by eapply lookup_lt_Some).
    destruct (lookup_lt_is_Some_2 lines k) as [l Hl]; [lia |].
    destruct (lookup_lt_is_Some_2 lines (k + 1)) as [u Hu]; [lia |].
    rewrite (selectStep_variant _ _ _ _ _ Hl).
    destruct (variantBandwidth l) as [b|] eqn:Hb.
    + destruct (variantBandwidth_natural _ _ Hb) as (z & -> & Hz).
      destruct (Hle _ _ _ Hl Hb) as [_ Hlt].
      destruct (Js.gt (Js.Num z) (highestBandwidth st)).
      * rewrite Hu. apply (IH _ _ z); [reflexivity | lia | lia].
      * apply (IH _ _ h); [assumption | lia | lia].
    + apply (IH _ _ h); [assumption | lia | lia].
Qed.

(** Once the running maximum is [bw] nothing replaces the selection. *)
Lemma selectLoop_after n k st :
  highestBandwidth st = Js.Num bw ->
  selectLoop n lines baseUrl k st = Ok st.
Proof.
  destruct Hmax as [_ Hle].
  revert k. induction n as [|n IH]; intros k Hst; simpl; [reflexivity |].
  destruct (lines !! k) as [l|] eqn:Hl.
  - rewrite (selectStep_variant _ _ _ _ _ Hl).
    destruct (variantBandwidth l) as [b|] eqn:Hb; [| by apply IH].
    destruct (variantBandwidth_natural _ _ Hb) as (z & -> & Hz).
    destruct (Hle _ _ _ Hl Hb) as [Hzle _].
    rewrite Hst. unfold Js.gt, Js.lt.
    destruct (Z.ltb_spec bw z); [lia | by apply IH].
  - unfold selectStep. rewrite Hl. by apply IH.
Qed.

(** The state of the scan when it reaches line [i] *)
Lemma selectLoop_reach :
  0 < bw ->
  exists st h, selectLoop i lines baseUrl 0
                 {| highestBandwidth := Js.Num 0; selectedStreamUrl := "" |}
               = Ok st
               /\ highestBandwidth st = Js.Num h /\ 0 <= h < bw.
Proof.
  intros Hpos. apply (selectLoop_before i 0%nat _ 0); [reflexivity | lia | lia].
Qed.

End Scan.

(** X21.  In a master playlist whose greatest bandwidth is positive and
    below 2^53 (so that every bandwidth of the playlist is read exactly),
    the scan returns the URI line that follows the first tag line of
    greatest bandwidth, resolved against the playlist's URL, whatever the
    order of the variants: a later variant replaces the selection only
    when its bandwidth is strictly greater than the running maximum. *)
Theorem selects_first_positive_maximum (playlist baseUrl : string)
    (i : nat) (bw : Z) (uri : string) :
  firstMaximum (Js.split newline playlist) i bw ->
  0 < bw -> bw < 2 ^ 53 ->
  Js.split newline playlist !! (i + 1)%nat = Some uri ->
  extractHighestQualityStream playlist baseUrl = Ok (resolveUrl uri baseUrl).
Proof.
  intros Hmax Hpos _ Huri. unfold extractHighestQualityStream. cbv zeta.
  set (lines := Js.split newline playlist) in *.
  assert (Hlen : (i + 1 < length lines)%nat) by (by eapply lookup_lt_Some).
  replace (length lines) with (i + (1 + (length lines - i - 1)))%nat by lia.
  rewrite selectLoop_add.
  destruct (selectLoop_reach lines baseUrl i bw Hmax Hpos)
    as (st & h & -> & Hst & Hh).
  simpl.
  destruct Hmax as [(line & Hline & Hbw) Hle] eqn:E. clear E.
  rewrite (selectStep_variant _ _ _ _ _ Hline), Hbw, Hst.
  unfold Js.gt, Js.lt. destruct (Z.ltb_spec h bw); [| lia].
  rewrite Huri.
  rewrite (selectLoop_after lines baseUrl i bw); [reflexivity | | reflexivity].
  split; [by exists line | exact Hle].
Qed.

Lemma twoVariants_firstMaximum :
  firstMaximum (Js.split newline twoVariants) 3 2400000.
Proof.
  split; [by eexists |].
  intros j l b Hj Hb.
  do 7 (destruct j as [|j];
        [injection Hj as <-; vm_compute in Hb;
         first [discriminate | injection Hb as <-; split; lia] |]).
  discriminate.
Qed.

Lemma selects_first_positive_maximum_witness :
  extractHighestQualityStream twoVariants "http://h/master.m3u8"
  = Ok "http://h/high.m3u8".
Proof.
  apply (selects_first_positive_maximum twoVariants "http://h/master.m3u8"
           3 2400000 "high.m3u8").
  - exact twoVariants_firstMaximum.
  - lia.
  - reflexivity.
  - reflexivity.
Defined.

Lemma zeroBandwidth_firstMaximum :
  firstMaximum (Js.split newline zeroBandwidth) 1 0.
Proof.
  split; [by eexists |].
  intros j l b Hj Hb.
  do 3 (destruct j as [|j];
        [injection Hj as <-; vm_compute in Hb;
         first [discriminate | injection Hb as <-; split; lia] |]).
  discriminate.
Qed.

(** C2.  The code at a master playlist whose only variant has
    [BANDWIDTH=0]: that variant carries the greatest bandwidth of the
    playlist and its URI line is [low.m3u8], which resolves to
    [http://h/low.m3u8], yet the scan returns the empty string: the running
    maximum starts at 0 and [0 > 0] is false, so the variant never
    replaces the initial selection. *)
Theorem zero_bandwidth_variant_lost :
  firstMaximum (Js.split newline zeroBandwidth) 1 0
  /\ Js.split newline zeroBandwidth !! 2%nat = Some "low.m3u8"
  /\ resolveUrl "low.m3u8" "http://h/master.m3u8" = "http://h/low.m3u8"
  /\ extractHighestQualityStream zeroBandwidth "http://h/master.m3u8" = Ok "".
Proof.
  split; [exact zeroBandwidth_firstMaximum |].
  repeat split; reflexivity.
Qed.

Lemma selectLoop_no_variant lines baseUrl n k st :
  (forall line, line ∈ lines -> variantBandwidth line = None) ->
  selectLoop n lines baseUrl k st = Ok st.
Proof.
  intros Hnone. revert k. induction n as [|n IH]; intros k; simpl; [reflexivity |].
  destruct (lines !! k) as [l|] eqn:Hl.
  - rewrite (selectStep_variant _ _ _ _ _ Hl), (Hnone l); [apply IH |].
    by eapply list_elem_of_lookup_2.
  - unfold selectStep. rewrite Hl. apply IH.
Qed.

(** C3, as amended.  When no stream-info line of a master playlist has a
    [BANDWIDTH] attribute that parses, variant selection does not fail: it
    returns the empty string, the initial value of the selection. *)
Theorem no_variant_selects_empty_url (playlist baseUrl : string) :
  Js.includes playlist STREAM_INF = true ->
  (forall line, line ∈ Js.split newline playlist ->
                variantBandwidth line = None) ->
  extractHighestQualityStream playlist baseUrl = Ok "".
Proof.
  intros _ Hnone. unfold extractHighestQualityStream. cbv zeta.
  by rewrite selectLoop_no_variant.
Qed.

Lemma noBandwidth_no_variant line :
  line ∈ Js.split newline noBandwidth -> variantBandwidth line = None.
Proof.
  intros Hin. apply list_elem_of_In in Hin. simpl in Hin.
  destruct Hin as [<- | [<- | [<- | []]]]; reflexivity.
Qed.

Lemma no_variant_selects_empty_url_witness :
  extractHighestQualityStream noBandwidth "http://h/master.m3u8" = Ok "".
Proof.
  apply (no_variant_selects_empty_url noBandwidth "http://h/master.m3u8").
  - reflexivity.
  - exact noBandwidth_no_variant.
Defined.

(** C3, as stated, fails: on a master playlist without any parseable
    bandwidth the selection returns a value. *)
Lemma no_variant_returns_a_value :
  Js.includes noBandwidth STREAM_INF = true
  /\ (forall line, line ∈ Js.split newline noBandwidth ->
                   variantBandwidth line = None)
  /\ forall e : JsError,
       extractHighestQualityStream noBandwidth "http://h/master.m3u8" <> Throw e.
Proof.
  split; [reflexivity | split; [exact noBandwidth_no_variant |]].
  intros e. vm_compute. discriminate.
Qed.

(** C4, as amended.  When the last line of a master playlist is a
    stream-info tag whose bandwidth exceeds the running maximum (it is
    positive and greater than the bandwidth of every earlier variant) and
    is below 2^53 (so that every bandwidth of the playlist is read
    exactly), no line follows to serve as URI and variant selection fails:
    [resolveUrl] is handed [undefined] and its [url.startsWith] raises a
    [TypeError] of the language. *)
Theorem trailing_tag_fails (playlist baseUrl : string) (i : nat) (bw : Z) :
  firstMaximum (Js.split newline playlist) i bw ->
  0 < bw -> bw < 2 ^ 53 ->
  S i = length (Js.split newline playlist) ->
  extractHighestQualityStream playlist baseUrl = Throw undefinedStartsWith.
Proof.
  intros Hmax Hpos _ Hlast. unfold extractHighestQualityStream. cbv zeta.
  set (lines := Js.split newline playlist) in *.
  rewrite <- Hlast. replace (S i) with (i + 1)%nat by lia.
  rewrite selectLoop_add.
  destruct (selectLoop_reach lines baseUrl i bw Hmax Hpos)
    as (st & h & -> & Hst & Hh).
  simpl.
  destruct Hmax as [(line & Hline & Hbw) _].
  rewrite (selectStep_variant _ _ _ _ _ Hline), Hbw, Hst.
  unfold Js.gt, Js.lt. destruct (Z.ltb_spec h bw); [| lia].
  rewrite (lookup_ge_None_2 lines (i + 1)); [reflexivity | lia].
Qed.

Lemma trailingTag_firstMaximum :
  firstMaximum (Js.split newline trailingTag) 3 2400000.
Proof.
  split; [by eexists |].
  intros j l b Hj Hb.
  do 4 (destruct j as [|j];
        [injection Hj as <-; vm_compute in Hb;
         first [discriminate | injection Hb as <-; split; lia] |]).
  discriminate.
Qed.

Lemma trailing_tag_fails_witness :
  extractHighestQualityStream trailingTag "http://h/master.m3u8"
  = Throw undefinedStartsWith.
Proof.
  apply (trailing_tag_fails trailingTag "http://h/master.m3u8" 3 2400000).
  - exact trailingTag_firstMaximum.
  - lia.
  - reflexivity.
  - reflexivity.
Defined.

(** C4, as stated, fails: the error of a trailing tag is a [TypeError], not
    an error of a class of the program's own. *)
Lemma trailing_tag_raises_TypeError :
  firstMaximum (Js.split newline trailingTag) 3 2400000
  /\ 4%nat = length (Js.split newline trailingTag)
  /\ exists e,
       extractHighestQualityStream trailingTag "http://h/master.m3u8" = Throw e
       /\ errorName e = Some "TypeError"
       /\ errorName e <> Some "MalformedPlaylistError".
Proof.
  split; [exact trailingTag_firstMaximum | split; [reflexivity |]].
  eexists. split; [vm_compute; reflexivity | split; [reflexivity | discriminate]].
Qed.

(** ** Promises *)

Section PromiseAll.

Context {A : Type}.
Implicit Types (settled : list (nat * Throws A)) (values : list (option A)).

Lemma settleAll_length settled values values' :
  settleAll settled values = Ok values' -> length values' = length values.
Proof.
  revert values. induction settled as [|[k [v|e]] settled IH]; intros values; simpl.
  - by intros [= <-].
  - intros H. rewrite (IH _ H). apply length_insert.
  - discriminate.
Qed.

(** A position that no settled promise fills keeps its value. *)
Lemma settleAll_other settled values values' k :
  settleAll settled values = Ok values' -> k ∉ settled.*1 ->
  values' !! k = values !! k.
Proof.
  revert values. induction settled as [|[j [v|e]] settled IH]; intros values; simpl.
  - by intros [= <-].
  - intros H Hk. apply not_elem_of_cons in Hk as [Hkj Hk].
    rewrite (IH _ H Hk). by apply list_lookup_insert_ne.
  - discriminate.
Qed.

(** A fulfilled promise leaves its value at its own position. *)
Lemma settleAll_filled settled values values' k v :
  settleAll settled values = Ok values' -> NoDup settled.*1 ->
  (k, inl v) ∈ settled -> (k < length values)%nat ->
  values' !! k = Some (Some v).
Proof.
  revert values. induction settled as [|[j r] settled IH]; intros values H Hnd Hin Hk.
  - by apply elem_of_nil in Hin.
  - simpl in Hnd. apply NoDup_cons in Hnd as [Hj Hnd].
    apply elem_of_cons in Hin as [[= <- <-] | Hin]; simpl in H.
    + rewrite (settleAll_other _ _ _ _ H Hj).
      by apply list_lookup_insert_eq.
    + destruct r as [u|e]; [| discriminate].
      apply (IH _ H Hnd Hin). by rewrite length_insert.
Qed.

(** Without a rejection every settlement is stored. *)
Lemma settleAll_fulfilled settled values :
  (forall k e, (k, inr e) ∉ settled) ->
  exists values', settleAll settled values = Ok values'.
Proof.
  revert values. induction settled as [|[j [v|e]] settled IH]; intros values Hok; simpl.
  - by eexists.
  - apply IH. intros k e Hin. apply (Hok k e). by right.
  - exfalso. apply (Hok j e). by left.
Qed.

(** With a rejection the result is the first rejection in settling order. *)
Lemma settleAll_rejected settled values k e :
  (k, inr e) ∈ settled ->
  exists k' e', settleAll settled values = Throw e' /\ (k', inr e') ∈ settled.
Proof.
  revert values. induction settled as [|[j [v|e0]] settled IH]; intros values Hin; simpl.
  - by apply elem_of_nil in Hin.
  - apply elem_of_cons in Hin as [[=] | Hin].
    destruct (IH (<[j:=Some v]> values) Hin) as (k' & e' & -> & Hin').
    exists k', e'. split; [reflexivity | by right].
  - exists j, e0. split; [reflexivity | by left].
Qed.

Lemma allFilled_Some (vs : list A) : allFilled (Some <$> vs) = Some vs.
Proof. induction vs as [|v vs IH]; csimpl; [reflexivity | by rewrite IH]. Qed.

Lemma imap_pair_positions {B} (l : list B) : (imap pair l).*1 = seq 0 (length l).
Proof.
  rewrite fmap_imap.
  rewrite (imap_ext _ (fun j _ => j)) by done.
  by rewrite imap_seq_0, list_fmap_id.
Qed.

Variable settling : list (nat * Throws A) -> list (nat * Throws A).
Hypothesis settling_perm : forall l, settling l ≡ₚ l.

(** When every promise is fulfilled, [Promise.all] gives the values in the
    order of the promises, whatever the order of settlement. *)
Lemma promiseAll_fulfilled (vs : list A) :
  promiseAll settling (Ok <$> vs) = Some (Ok vs).
Proof.
  unfold promiseAll.
  set (settled := settling (imap pair (Ok <$> vs))).
  assert (Hperm : settled ≡ₚ imap pair (Ok <$> vs)) by apply settling_perm.
  set (init := replicate _ None).
  assert (Hinit : length init = length vs)
    by (subst init; by rewrite length_replicate, length_fmap).
  destruct (settleAll_fulfilled settled init) as [values Hvalues].
  { intros k e Hin. rewrite Hperm in Hin.
    apply elem_of_lookup_imap in Hin as (j & r & [= -> <-] & Hj).
    rewrite list_lookup_fmap in Hj. by destruct (vs !! j). }
  rewrite Hvalues.
  assert (values = Some <$> vs) as ->; [| cbv iota beta; by rewrite allFilled_Some].
  pose proof (settleAll_length _ _ _ Hvalues) as Hlen.
  rewrite Hinit in Hlen.
  apply list_eq. intros k. rewrite list_lookup_fmap.
  destruct (vs !! k) as [v|] eqn:Hk; simpl.
  - apply (settleAll_filled _ _ _ _ _ Hvalues).
    + rewrite Hperm, imap_pair_positions. apply NoDup_seq.
    + rewrite Hperm. apply (elem_of_lookup_imap_2 pair _ (Ok v) k).
      by rewrite list_lookup_fmap, Hk.
    + rewrite Hinit. by eapply lookup_lt_Some.
  - apply lookup_ge_None_2. rewrite Hlen. by apply lookup_ge_None_1.
Qed.

(** When a promise is rejected, [Promise.all] is rejected with the error of
    one of the rejected promises. *)
Lemma promiseAll_rejected (promises : list (Throws A)) k e :
  promises !! k = Some (inr e) ->
  exists k' e', promiseAll settling promises = Some (Throw e')
                /\ promises !! k' = Some (inr e').
Proof.
  intros Hk. unfold promiseAll.
  set (settled := settling (imap pair promises)).
  assert (Hperm : settled ≡ₚ imap pair promises) by apply settling_perm.
  set (init := replicate _ None).
  destruct (settleAll_rejected settled init k e) as (k' & e' & -> & Hin).
  { rewrite Hperm. by apply (elem_of_lookup_imap_2 pair _ (Throw e) k). }
  exists k', e'. split; [reflexivity |].
  rewrite Hperm in Hin.
  by apply elem_of_lookup_imap in Hin as (j & r & [= -> <-] & Hj).
Qed.

End PromiseAll.

(** ** One batch *)

Lemma downloadSegment_ok fetch url :
  fetchOk fetch url = true -> downloadSegment fetch url = Ok (payload fetch url).
Proof.
  unfold fetchOk, downloadSegment, payload.
  destruct (fetch url) as [r|]; [| discriminate]. by intros ->.
Qed.

Lemma slice_batch (segments : list string) (k c : nat) :
  (k <= length segments)%nat ->
  Js.slice segments (Js.Num (Z.of_nat k))
    (Js.add (Js.Num (Z.of_nat k)) (Js.Num (Z.of_nat c)))
  = take c (drop k segments).
Proof.
  intros Hk. unfold Js.slice, Js.add, Js.toInteger.
  destruct (Z.ltb_spec (Z.of_nat k) 0); [lia |].
  destruct (Z.ltb_spec (Z.of_nat k + Z.of_nat c) 0); [lia |].
  replace (Z.to_nat (Z.min (Z.of_nat k) (Z.of_nat (length segments)))) with k by lia.
  destruct (decide (k + c <= length segments)%nat).
  - f_equal. lia.
  - rewrite !take_ge; [reflexivity | |]; rewrite length_drop; lia.
Qed.

Lemma issueBatch_issues (k : nat) batch w :
  issueBatch (Js.Num (Z.of_nat k)) batch w = runIssues k batch w.
Proof.
  unfold issueBatch, runIssues, issues.
  induction batch as [|url batch IH] using rev_ind.
  - destruct w. simpl. by rewrite app_nil_r.
  - rewrite !imap_app, foldl_app, IH. simpl.
    unfold issue. simpl. rewrite <- app_assoc, Nat.add_0_r.
    by rewrite Nat2Z.inj_add.
Qed.

Lemma writeResults_writes fetch (k : nat) batch w :
  writeResults
    (imap (fun j url => {| index := Js.Num (Z.of_nat (k + j));
                           data := payload fetch url |}) batch) w
  = {| content := content w +:+ payloads fetch batch;
       closed := closed w;
       progress := progress w + length batch;
       trace := trace w ++ writes fetch k batch |}.
Proof.
  unfold writeResults, writes, payloads.
  induction batch as [|url batch IH] using rev_ind.
  - destruct w. simpl. by rewrite app_nil_r, append_nil_r, Nat.add_0_r.
  - rewrite !imap_app, foldl_app, IH. simpl.
    unfold writeSegment. simpl. f_equal.
    + rewrite append_assoc. f_equal.
      by rewrite fmap_app, concat_app.
    + rewrite length_app. simpl. lia.
    + rewrite <- app_assoc. by rewrite Nat.add_0_r.
Qed.

Lemma batchPromises_ok fetch (k : nat) batch :
  (forall url, url ∈ batch -> fetchOk fetch url = true) ->
  batchPromises fetch (Js.Num (Z.of_nat k)) batch
  = Ok <$> batchResults fetch k batch.
Proof.
  intros Hok. unfold batchPromises, batchResults.
  apply list_eq. intros j.
  rewrite list_lookup_fmap, !list_lookup_imap.
  destruct (batch !! j) as [url|] eqn:Hj; simpl; [| reflexivity].
  rewrite downloadSegment_ok by (apply Hok; by eapply list_elem_of_lookup_2).
  by rewrite Nat2Z.inj_add.
Qed.

Lemma batchPromises_lookup fetch i batch j url :
  batch !! j = Some url ->
  batchPromises fetch i batch !! j
  = Some match downloadSegment fetch url with
         | inl d => Ok {| index := Js.add i (Js.Num (Z.of_nat j)); data := d |}
         | inr e => Throw e
         end.
Proof. intros Hj. unfold batchPromises. by rewrite list_lookup_imap, Hj. Qed.

(** Sorting a list that is already in ascending order of index leaves it
    as it is. *)
Lemma sortResults_ascending (l : list SegmentResult) :
  (forall j a b, l !! j = Some a -> l !! S j = Some b -> after a b = false) ->
  sortResults l = l.
Proof.
  induction l as [|x l IH]; intros Hasc; simpl; [reflexivity |].
  rewrite IH by (intros j a b Ha Hb; by apply (Hasc (S j))).
  destruct l as [|y l]; simpl; [reflexivity |].
  by rewrite (Hasc 0%nat x y).
Qed.

Lemma sortResults_batch fetch k batch :
  sortResults (batchResults fetch k batch) = batchResults fetch k batch.
Proof.
  apply sortResults_ascending. intros j a b. unfold batchResults.
  rewrite !list_lookup_imap.
  destruct (batch !! j); [| discriminate].
  destruct (batch !! S j); [| discriminate].
  intros [= <-] [= <-]. unfold after, sub, Js.gt, Js.lt. simpl.
  apply Z.ltb_ge. lia.
Qed.

Section Batch.

Variables (fetch : Transport) (order : Order SegmentResult).
Hypothesis order_perm : forall i l, order i l ≡ₚ l.

Variables (segments : list string) (c : nat).

(** A batch whose fetches all succeed is issued and then written in index
    order. *)
Lemma batchStep_ok (k : nat) w :
  (k <= length segments)%nat ->
  (forall url, url ∈ take c (drop k segments) -> fetchOk fetch url = true) ->
  batchStep fetch order segments (Js.Num (Z.of_nat c)) (Js.Num (Z.of_nat k)) w
  = Some (Ok tt, runBatch fetch k (take c (drop k segments)) w).
Proof.
  intros Hk Hbatch. unfold batchStep, bind, effect.
  rewrite slice_batch by exact Hk.
  set (batch := take c (drop k segments)) in *.
  rewrite batchPromises_ok by exact Hbatch.
  rewrite (promiseAll_fulfilled _ (order_perm _)).
  rewrite sortResults_batch, issueBatch_issues.
  unfold batchResults. rewrite writeResults_writes.
  unfold runBatch, runIssues. simpl. by rewrite <- app_assoc.
Qed.

(** A batch with a fetch that fails: the fetches are issued, nothing is
    written, and the error is the error of a fetch of the batch. *)
Lemma batchStep_rejected (k : nat) w j url e :
  (k <= length segments)%nat ->
  take c (drop k segments) !! j = Some url ->
  downloadSegment fetch url = Throw e ->
  exists j' url' e',
    batchStep fetch order segments (Js.Num (Z.of_nat c)) (Js.Num (Z.of_nat k)) w
    = Some (Throw e', runIssues k (take c (drop k segments)) w)
    /\ take c (drop k segments) !! j' = Some url'
    /\ downloadSegment fetch url' = Throw e'.
Proof.
  intros Hk Hj He. unfold batchStep, bind, effect.
  rewrite slice_batch by exact Hk.
  set (batch := take c (drop k segments)) in *.
  destruct (promiseAll_rejected (order (Js.Num (Z.of_nat k))) (order_perm _)
              (batchPromises fetch (Js.Num (Z.of_nat k)) batch) j e)
    as (j' & e' & -> & Hj').
  { by rewrite (batchPromises_lookup _ _ _ _ _ Hj), He. }
  unfold batchPromises in Hj'. rewrite list_lookup_imap in Hj'.
  destruct (batch !! j') as [url'|] eqn:Hurl'; [| discriminate].
  simpl in Hj'.
  destruct (downloadSegment fetch url') as [d|e''] eqn:He'; [discriminate |].
  injection Hj' as <-.
  exists j', url', e''. by rewrite issueBatch_issues.
Qed.

(** In both cases the body of the loop returns. *)
Lemma batchStep_returns (k : nat) w :
  (k <= length segments)%nat ->
  exists r w', batchStep fetch order segments
                 (Js.Num (Z.of_nat c)) (Js.Num (Z.of_nat k)) w = Some (r, w').
Proof.
  intros Hk.
  destruct (decide (Forall (fun url => fetchOk fetch url = true)
              (take c (drop k segments)))) as [Hall | Hsome].
  - unfold batchStep, bind, effect.
    rewrite slice_batch by exact Hk.
    rewrite batchPromises_ok by (by apply Forall_forall).
    rewrite (promiseAll_fulfilled _ (order_perm _)). by eexists _, _.
  - apply not_Forall_Exists in Hsome; [| intros url; apply _].
    apply Exists_exists in Hsome as (url & Hin & Hurl).
    apply list_elem_of_lookup in Hin as [j Hj].
    destruct (downloadSegment fetch url) as [d|e] eqn:He.
    + exfalso. apply Hurl. unfold fetchOk, downloadSegment in *.
      destruct (fetch url) as [r|]; [| discriminate].
      by destruct (ok r).
    + destruct (batchStep_rejected k w j url e Hk Hj He) as (? & ? & ? & -> & _).
      by eexists _, _.
Qed.

End Batch.

(** ** Batches *)

Section Chunks.

Context {A : Type}.
Variable c : nat.
Hypothesis c_pos : (1 <= c)%nat.
Implicit Types l : list A.

Lemma chunksFuel_enough fuel fuel' l :
  (length l <= fuel)%nat -> (length l <= fuel')%nat ->
  chunksFuel fuel c l = chunksFuel fuel' c l.
Proof.
  revert fuel' l. induction fuel as [|fuel IH]; intros fuel' l Hf Hf'.
  - destruct l; [| simpl in Hf; lia]. by destruct fuel'.
  - destruct l as [|x l]; [by destruct fuel' |].
    destruct fuel' as [|fuel']; [simpl in Hf'; lia |].
    simpl. f_equal. simpl in Hf, Hf'.
    apply IH; rewrite length_drop; simpl; lia.
Qed.

Lemma chunks_nil : chunks c (@nil A) = [].
Proof. reflexivity. Qed.

Lemma chunks_unfold l :
  l <> [] -> chunks c l = take c l :: chunks c (drop c l).
Proof.
  intros Hl. unfold chunks. destruct l as [|x l]; [done |].
  simpl. f_equal.
  apply chunksFuel_enough; rewrite ?length_drop; simpl; lia.
Qed.

(** Induction along the batches of a list *)
Lemma chunks_ind (P : list A -> list (list A) -> Prop) :
  P [] [] ->
  (forall l, l <> [] -> P (drop c l) (chunks c (drop c l)) ->
             P l (take c l :: chunks c (drop c l))) ->
  forall l, P l (chunks c l).
Proof.
  intros Hnil Hstep l.
  induction l as [l IH] using (induction_ltof1 _ (@length A)). unfold ltof in IH.
  destruct l as [|x l]; [exact Hnil |].
  rewrite chunks_unfold by done.
  apply Hstep; [done |]. apply IH.
  rewrite length_drop. simpl. lia.
Qed.

Lemma chunks_concat l : concat (chunks c l) = l.
Proof.
  apply (chunks_ind (fun l bs => concat bs = l)); [reflexivity |].
  intros l' _ IH. simpl. rewrite IH. apply take_drop.
Qed.

(** Every batch has between 1 and [c] elements, and [c] unless it is the
    last one. *)
Lemma chunks_sizes l j b :
  chunks c l !! j = Some b ->
  (1 <= length b <= c)%nat
  /\ ((S j < length (chunks c l))%nat -> length b = c).
Proof.
  revert j b.
  apply (chunks_ind (fun l bs => forall j b, bs !! j = Some b ->
           (1 <= length b <= c)%nat /\ ((S j < length bs)%nat -> length b = c))).
  - intros j b. by rewrite lookup_nil.
  - intros l' Hl' IH [|j] b; simpl.
    + intros [= <-]. rewrite length_take. split.
      * destruct l'; [done |]. simpl. lia.
      * intros Hmore. destruct (decide (c <= length l')%nat); [lia |].
        rewrite drop_ge in Hmore by lia. simpl in Hmore. lia.
    + intros Hj. destruct (IH j b Hj) as [H1 H2]. split; [exact H1 |].
      intros Hmore. apply H2. lia.
Qed.

(** There are [⌈n / c⌉] batches for [n] elements. *)
Lemma chunks_length l :
  Z.of_nat (length (chunks c l))
  = (Z.of_nat (length l) + Z.of_nat c - 1) / Z.of_nat c.
Proof.
  apply (chunks_ind (fun l bs =>
           Z.of_nat (length bs) = (Z.of_nat (length l) + Z.of_nat c - 1) / Z.of_nat c)).
  - simpl. symmetry. apply Z.div_small. lia.
  - intros l' Hl' IH. simpl length. rewrite Nat2Z.inj_succ, IH, length_drop.
    assert (0 < length l')%nat by (destruct l'; [done | simpl; lia]).
    destruct (decide (c <= length l')%nat).
    + replace (Z.of_nat (length l') + Z.of_nat c - 1)
        with ((Z.of_nat (length l' - c) + Z.of_nat c - 1) + 1 * Z.of_nat c) by lia.
      rewrite Z.div_add by lia. lia.
    + replace (length l' - c)%nat with 0%nat by lia.
      rewrite (Z.div_small (Z.of_nat 0 + Z.of_nat c - 1)) by lia.
      replace (Z.of_nat (length l') + Z.of_nat c - 1)
        with ((Z.of_nat (length l') - 1) + 1 * Z.of_nat c) by lia.
      rewrite Z.div_add by lia. rewrite Z.div_small by lia. lia.
Qed.

End Chunks.

(** ** The batch loop *)

Lemma runBatches_world fetch start batches w :
  runBatches fetch start batches w
  = {| content := content w +:+ payloads fetch (concat batches);
       closed := closed w;
       progress := progress w + length (concat batches);
       trace := trace w ++ batchesTrace fetch start batches |}.
Proof.
  revert start w. induction batches as [|b bs IH]; intros start w; simpl.
  - destruct w. simpl. by rewrite append_nil_r, Nat.add_0_r, app_nil_r.
  - rewrite IH. unfold runBatch, payloads. simpl. f_equal.
    + by rewrite fmap_app, concat_app, append_assoc.
    + rewrite length_app. lia.
    + by rewrite <- !app_assoc.
Qed.

Lemma batchLoop_unfold fuel fetch order segments concurrency i :
  batchLoop fuel fetch order segments concurrency i
  = if Js.lt i (Js.Num (Z.of_nat (length segments))) then
      match fuel with
      | O => diverge
      | S fuel' =>
          do! batchStep fetch order segments concurrency i in
          batchLoop fuel' fetch order segments concurrency (Js.add i concurrency)
      end
    else ret tt.
Proof. by destruct fuel. Qed.

Section Loop.

Variables (fetch : Transport) (order : Order SegmentResult).
Hypothesis order_perm : forall i l, order i l ≡ₚ l.

Variables (segments : list string) (c : nat).

Local Abbreviation loop fuel k :=
  (batchLoop fuel fetch order segments (Js.Num (Z.of_nat c)) (Js.Num (Z.of_nat k))).

Lemma batchLoop_done fuel k w :
  (length segments <= k)%nat -> loop fuel k w = Some (Ok tt, w).
Proof.
  intros Hk. unfold loop.
  assert (Js.lt (Js.Num (Z.of_nat k)) (Js.Num (Z.of_nat (length segments))) = false)
    as Hlt by (apply Z.ltb_ge; lia).
  by rewrite batchLoop_unfold, Hlt.
Qed.

Lemma batchLoop_out_of_fuel k w :
  (k < length segments)%nat -> loop 0 k w = None.
Proof.
  intros Hk. rewrite batchLoop_unfold.
  assert (Js.lt (Js.Num (Z.of_nat k)) (Js.Num (Z.of_nat (length segments))) = true)
    as -> by (apply Z.ltb_lt; lia).
  reflexivity.
Qed.

Lemma batchLoop_step fuel k w :
  (k < length segments)%nat ->
  loop (S fuel) k w
  = match batchStep fetch order segments
            (Js.Num (Z.of_nat c)) (Js.Num (Z.of_nat k)) w with
    | None => None
    | Some (inl _, w') => loop fuel (k + c) w'
    | Some (inr e, w') => Some (Throw e, w')
    end.
Proof.
  intros Hk. rewrite batchLoop_unfold.
  assert (Js.lt (Js.Num (Z.of_nat k)) (Js.Num (Z.of_nat (length segments))) = true)
    as -> by (apply Z.ltb_lt; lia).
  unfold bind at 1. rewrite Nat2Z.inj_add.
  destruct (batchStep _ _ _ _ _ w) as [[[[]|e] w']|]; reflexivity.
Qed.

Hypothesis c_pos : (1 <= c)%nat.

Lemma next_batch_start (k : nat) :
  length (take c (drop k segments)) = c
  \/ chunks c (drop (k + c) segments) = [].
Proof.
  rewrite length_take, length_drop.
  destruct (decide (c <= length segments - k)%nat); [left; lia | right].
  by rewrite drop_ge by lia.
Qed.

Lemma chunks_from (k : nat) :
  (k < length segments)%nat ->
  chunks c (drop k segments)
  = take c (drop k segments) :: chunks c (drop (k + c) segments).
Proof.
  intros Hk. rewrite chunks_unfold, drop_drop; [reflexivity | exact c_pos |].
  intros Hnil. apply (f_equal length) in Hnil.
  rewrite length_drop in Hnil. simpl in Hnil. lia.
Qed.

Lemma runBatches_from (k : nat) w :
  (k < length segments)%nat ->
  runBatches fetch k (chunks c (drop k segments)) w
  = runBatches fetch (k + c) (chunks c (drop (k + c) segments))
      (runBatch fetch k (take c (drop k segments)) w).
Proof.
  intros Hk. rewrite chunks_from by exact Hk. simpl.
  destruct (next_batch_start k) as [-> | ->]; reflexivity.
Qed.

(** When every fetch succeeds, the loop runs the batches one after the
    other, provided it has fuel for each of them. *)
Lemma batchLoop_ok fuel k w :
  (forall url, url ∈ drop k segments -> fetchOk fetch url = true) ->
  (length (chunks c (drop k segments)) <= fuel)%nat ->
  loop fuel k w
  = Some (Ok tt, runBatches fetch k (chunks c (drop k segments)) w).
Proof.
  revert k w. induction fuel as [|fuel IH]; intros k w Hok Hfuel;
    destruct (decide (k < length segments)%nat) as [Hk | Hk].
  - rewrite chunks_from in Hfuel by exact Hk. simpl in Hfuel. lia.
  - rewrite batchLoop_done, drop_ge by lia. reflexivity.
  - rewrite batchLoop_step by exact Hk.
    rewrite batchStep_ok; [| exact order_perm | lia |].
    + rewrite runBatches_from by exact Hk. apply IH.
      * intros url Hin. apply Hok.
        rewrite <- (take_drop c (drop k segments)), drop_drop.
        apply elem_of_app. by right.
      * rewrite chunks_from in Hfuel by exact Hk. simpl in Hfuel. lia.
    + intros url Hin. apply Hok.
      rewrite <- (take_drop c (drop k segments)). apply elem_of_app. by left.
  - rewrite batchLoop_done, drop_ge by lia. reflexivity.
Qed.

(** With fuel for fewer iterations than there are batches the loop is still
    running when the fuel is spent. *)
Lemma batchLoop_short fuel k w :
  (forall url, url ∈ drop k segments -> fetchOk fetch url = true) ->
  (fuel < length (chunks c (drop k segments)))%nat ->
  loop fuel k w = None.
Proof.
  revert k w. induction fuel as [|fuel IH]; intros k w Hok Hfuel;
    destruct (decide (k < length segments)%nat) as [Hk | Hk].
  - by apply batchLoop_out_of_fuel.
  - rewrite drop_ge in Hfuel by lia. simpl in Hfuel. lia.
  - rewrite batchLoop_step by exact Hk.
    rewrite batchStep_ok; [| exact order_perm | lia |].
    + apply IH.
      * intros url Hin. apply Hok.
        rewrite <- (take_drop c (drop k segments)), drop_drop.
        apply elem_of_app. by right.
      * rewrite chunks_from in Hfuel by exact Hk. simpl in Hfuel. lia.
    + intros url Hin. apply Hok.
      rewrite <- (take_drop c (drop k segments)). apply elem_of_app. by left.
  - rewrite drop_ge in Hfuel by lia. simpl in Hfuel. lia.
Qed.

(** Whatever the transport answers, the loop returns within one iteration
    per batch. *)
Lemma batchLoop_returns fuel k w :
  (length (chunks c (drop k segments)) <= fuel)%nat ->
  exists r w', loop fuel k w = Some (r, w').
Proof.
  revert k w. induction fuel as [|fuel IH]; intros k w Hfuel;
    destruct (decide (k < length segments)%nat) as [Hk | Hk].
  - rewrite chunks_from in Hfuel by exact Hk. simpl in Hfuel. lia.
  - rewrite batchLoop_done by lia. by eexists _, _.
  - rewrite batchLoop_step by exact Hk.
    destruct (batchStep_returns fetch order order_perm segments c k w)
      as ([[]|e] & w' & ->); [lia | | by eexists _, _].
    apply IH. rewrite chunks_from in Hfuel by exact Hk. simpl in Hfuel. lia.
  - rewrite batchLoop_done by lia. by eexists _, _.
Qed.

End Loop.

(** With concurrency 0 the index stays where it is. *)
Lemma batchLoop_stuck fetch order segments fuel w :
  (forall i l, order i l ≡ₚ l) ->
  (0 < length segments)%nat ->
  batchLoop fuel fetch order segments (Js.Num 0) (Js.Num 0) w = None.
Proof.
  intros order_perm Hlen. revert w. induction fuel as [|fuel IH]; intros w.
  - by apply (batchLoop_out_of_fuel fetch order segments 0 0).
  - rewrite (batchLoop_step fetch order segments 0 fuel 0) by exact Hlen.
    rewrite (batchStep_ok fetch order order_perm segments 0 0);
      [apply IH | lia |].
    intros url. rewrite take_0. by intros ?%elem_of_nil.
Qed.

Section Failure.

Variables (fetch : Transport) (order : Order SegmentResult).
Hypothesis order_perm : forall i l, order i l ≡ₚ l.

Variables (segments : list string) (c : nat).
Hypothesis c_pos : (1 <= c)%nat.

(** When a fetch fails, the loop runs the batches before the first batch
    with a failing fetch, issues the fetches of that batch and throws the
    error of one of them without writing any of its segments. *)
Lemma batchLoop_rejected fuel k w failing :
  failing ∈ drop k segments -> fetchOk fetch failing = false ->
  (length (chunks c (drop k segments)) <= fuel)%nat ->
  exists n batch url e,
    chunks c (drop k segments) !! n = Some batch
    /\ (forall u, u ∈ concat (take n (chunks c (drop k segments))) ->
                  fetchOk fetch u = true)
    /\ url ∈ batch /\ downloadSegment fetch url = Throw e
    /\ batchLoop fuel fetch order segments
         (Js.Num (Z.of_nat c)) (Js.Num (Z.of_nat k)) w
       = Some (Throw e,
               runIssues (k + n * c) batch
                 (runBatches fetch k (take n (chunks c (drop k segments))) w)).
Proof.
  revert k w. induction fuel as [|fuel IH]; intros k w Hin Hfail Hfuel.
  - assert (Hk : (k < length segments)%nat).
    { destruct (decide (k < length segments)%nat); [done |].
      rewrite drop_ge in Hin by lia. by apply elem_of_nil in Hin. }
    rewrite (chunks_from segments c c_pos k Hk) in Hfuel. simpl in Hfuel. lia.
  - assert (Hk : (k < length segments)%nat).
    { destruct (decide (k < length segments)%nat); [done |].
      rewrite drop_ge in Hin by lia. by apply elem_of_nil in Hin. }
    rewrite (chunks_from segments c c_pos k Hk) in *. simpl in Hfuel.
    rewrite (batchLoop_step fetch order segments c fuel k w Hk).
    set (batch := take c (drop k segments)) in *.
    destruct (decide (Forall (fun url => fetchOk fetch url = true) batch))
      as [Hall | Hsome].
    + rewrite Forall_forall in Hall.
      rewrite (batchStep_ok fetch order order_perm segments c k w); [| lia | exact Hall].
      cbv beta iota. fold batch.
      assert (Hrest : failing ∈ drop (k + c) segments).
      { rewrite <- (take_drop c (drop k segments)), drop_drop in Hin.
        apply elem_of_app in Hin as [Hin | Hin]; [| exact Hin].
        rewrite (Hall _ Hin) in Hfail. discriminate. }
      destruct (IH (k + c)%nat (runBatch fetch k batch w) Hrest Hfail)
        as (n & b & url & e & Hb & Hbefore & Hurl & He & ->); [lia |].
      exists (S n), b, url, e. simpl.
      assert (Hfull : length batch = c).
      { destruct (next_batch_start segments c c_pos k) as [Hc | Hnil]; [exact Hc |].
        rewrite Hnil in Hb. by rewrite lookup_nil in Hb. }
      split; [exact Hb | split; [| split; [exact Hurl | split; [exact He |]]]].
      * intros u Hu. apply elem_of_app in Hu as [Hu | Hu]; [by apply Hall | by apply Hbefore].
      * rewrite Hfull. do 3 f_equal. lia.
    + apply not_Forall_Exists in Hsome; [| intros u; apply _].
      apply Exists_exists in Hsome as (u & Hu & Hubad). simpl in Hubad.
      apply list_elem_of_lookup in Hu as [j Hj].
      assert (He : exists e, downloadSegment fetch u = Throw e).
      { unfold fetchOk, downloadSegment in *.
        destruct (fetch u) as [r|]; [| by eexists].
        destruct (ok r); [by destruct Hubad | by eexists]. }
      destruct He as [e He].
      destruct (batchStep_rejected fetch order order_perm segments c k w j u e)
        as (j' & url' & e' & -> & Hj' & He'); [lia | exact Hj | exact He |].
      exists 0%nat, batch, url', e'. simpl.
      split; [reflexivity | split; [| split; [| split; [exact He' |]]]].
      * intros u0 Hu0. by apply elem_of_nil in Hu0.
      * by eapply list_elem_of_lookup_2.
      * by rewrite Nat.add_0_r.
Qed.

End Failure.

(** ** The media playlist *)

Lemma processMediaPlaylist_loop fuel fetch order playlist baseUrl outputFile
    concurrency w :
  processMediaPlaylist fuel fetch order playlist baseUrl outputFile concurrency w
  = match batchLoop fuel fetch order (extractSegments playlist baseUrl)
            concurrency (Js.Num 0) (openFile w) with
    | None => None
    | Some (r, w') => Some (r, closeFile w')
    end.
Proof. reflexivity. Qed.

Lemma filter_issues start batch : List.filter isWrote (issues start batch) = [].
Proof.
  unfold issues. revert start.
  induction batch as [|url batch IH] using rev_ind; intros start; [reflexivity |].
  rewrite imap_app, List.filter_app, IH. reflexivity.
Qed.

Lemma filter_writes fetch start batch :
  List.filter isWrote (writes fetch start batch) = writes fetch start batch.
Proof.
  unfold writes. revert start.
  induction batch as [|url batch IH] using rev_ind; intros start; [reflexivity |].
  rewrite imap_app, List.filter_app, IH. reflexivity.
Qed.

Lemma writes_app fetch start a b :
  writes fetch start (a ++ b)
  = writes fetch start a ++ writes fetch (start + length a) b.
Proof.
  unfold writes. rewrite imap_app. f_equal.
  apply imap_ext. intros j url _. simpl. by rewrite Nat.add_assoc.
Qed.

(** The writes of a run of batches are the writes of their segments in
    index order. *)
Lemma filter_batchesTrace fetch start batches :
  List.filter isWrote (batchesTrace fetch start batches)
  = writes fetch start (concat batches).
Proof.
  revert start. induction batches as [|b bs IH]; intros start; simpl; [reflexivity |].
  rewrite !List.filter_app, filter_issues, filter_writes, IH, writes_app.
  reflexivity.
Qed.

(** The events of the first batches all come before the events of the
    batches that follow. *)
Lemma batchesTrace_app fetch start before following :
  batchesTrace fetch start (before ++ following)
  = batchesTrace fetch start before
    ++ batchesTrace fetch (start + length (concat before)) following.
Proof.
  revert start. induction before as [|b bs IH]; intros start; simpl.
  - by rewrite Nat.add_0_r.
  - rewrite IH, length_app, Nat.add_assoc. by rewrite <- !app_assoc.
Qed.

Section MediaPlaylist.

Variables (fetch : Transport) (order : Order SegmentResult).
Hypothesis order_perm : forall i l, order i l ≡ₚ l.

Variables (playlist baseUrl outputFile : string) (C : Z).
Hypothesis C_pos : 1 <= C.

Let segments := extractSegments playlist baseUrl.

Hypothesis fetches_ok : forall url, url ∈ segments -> fetchOk fetch url = true.

Variable fuel : nat.
Hypothesis enough_fuel :
  (Z.of_nat (length segments) + C - 1) / C <= Z.of_nat fuel.

(** The run of [processMediaPlaylist] when every fetch succeeds *)
Lemma processMediaPlaylist_ok w :
  processMediaPlaylist fuel fetch order playlist baseUrl outputFile (Js.Num C) w
  = Some (Ok tt,
          closeFile (runBatches fetch 0 (chunks (Z.to_nat C) segments)
                       (openFile w))).
Proof.
  rewrite processMediaPlaylist_loop. fold segments.
  rewrite <- (Z2Nat.id C) at 1 by lia.
  assert (Hc : (1 <= Z.to_nat C)%nat) by lia.
  rewrite (batchLoop_ok fetch order order_perm segments (Z.to_nat C) Hc fuel 0);
    [reflexivity | exact fetches_ok |].
  simpl drop. apply Nat2Z.inj_le.
  rewrite (chunks_length _ Hc), Z2Nat.id by lia. exact enough_fuel.
Qed.

(** C1.  When every fetch succeeds, whatever the order in which the fetches
    of a batch settle, [processMediaPlaylist] returns, closes the file and
    has written one segment per segment line of the playlist ([M] of them):
    the file holds the payloads of the segments concatenated in the order
    of the playlist, and the writes carry the indices [0 .. M-1] in
    ascending order, each with the payload of its segment. *)
Theorem segments_written_in_order (w : World) :
  exists w' events,
    processMediaPlaylist fuel fetch order playlist baseUrl outputFile (Js.Num C) w
    = Some (Ok tt, w')
    /\ length segments
       = length (List.filter segmentLine (Js.split newline playlist))
    /\ content w' = payloads fetch segments
    /\ progress w' = length segments
    /\ closed w' = true
    /\ trace w' = trace w ++ events
    /\ List.filter isWrote events
       = imap (fun k url => Wrote (Js.Num (Z.of_nat k)) (payload fetch url))
           segments.
Proof.
  assert (Hc : (1 <= Z.to_nat C)%nat) by lia.
  eexists _, _. split; [apply processMediaPlaylist_ok |].
  rewrite runBatches_world, (chunks_concat _ Hc). simpl.
  split; [| split; [reflexivity | split; [reflexivity | split; [reflexivity |]]]].
  { subst segments. by rewrite extractSegments_filter, length_map. }
  split; [by rewrite <- app_assoc |].
  rewrite List.filter_app, filter_batchesTrace, (chunks_concat _ Hc). simpl.
  by rewrite app_nil_r.
Qed.

(** C8.  The segment list is cut into [⌈M / C⌉] consecutive batches of at
    most [C] URLs, all of [C] URLs except possibly the last, and the run
    proceeds batch by batch: the fetches of a batch are issued, then its
    segments are written, and only then are the fetches of the next batch
    issued; at every batch boundary [j] the trace is the events of the
    first [j] batches, writes included, followed by the events of the
    others.  Five URLs with [C = 2] give batches of sizes 2, 2 and 1. *)
Theorem batches_in_sequence (w : World) :
  let batches := chunks (Z.to_nat C) segments in
  concat batches = segments
  /\ Z.of_nat (length batches) = (Z.of_nat (length segments) + C - 1) / C
  /\ (forall j b, batches !! j = Some b ->
        1 <= Z.of_nat (length b) <= C
        /\ ((S j < length batches)%nat -> Z.of_nat (length b) = C))
  /\ (exists w',
        processMediaPlaylist fuel fetch order playlist baseUrl outputFile
          (Js.Num C) w = Some (Ok tt, w')
        /\ trace w' = trace w ++ batchesTrace fetch 0 batches ++ [Closed]
        /\ forall j : nat,
             trace w'
             = trace w ++ batchesTrace fetch 0 (take j batches)
               ++ batchesTrace fetch (length (concat (take j batches)))
                    (drop j batches)
               ++ [Closed])
  /\ length <$> chunks 2 ["s0"; "s1"; "s2"; "s3"; "s4"] = [2; 2; 1]%nat.
Proof.
  assert (Hc : (1 <= Z.to_nat C)%nat) by lia.
  intros batches. split; [apply (chunks_concat _ Hc) |].
  split; [unfold batches; rewrite (chunks_length _ Hc), Z2Nat.id by lia; reflexivity |].
  split.
  { intros j b Hb. destruct (chunks_sizes _ Hc _ _ _ Hb) as [H1 H2].
    split; [lia |]. intros Hmore. specialize (H2 Hmore). lia. }
  split; [| reflexivity].
  eexists. split; [apply processMediaPlaylist_ok |].
  rewrite runBatches_world. simpl. fold batches.
  split; [by rewrite <- app_assoc |].
  intros j. rewrite <- (take_drop j batches) at 1.
  rewrite batchesTrace_app. by rewrite <- !app_assoc.
Qed.

End MediaPlaylist.

(** C10.  Each iteration of the batch loop adds the concurrency to the
    index.  With [C >= 1] the loop returns within [⌈M / C⌉] iterations
    whatever the transport answers, and when every fetch succeeds it
    returns after [⌈M / C⌉] iterations and not before.  With [C = 0] and
    at least one segment the index never advances and the loop never
    returns. *)
Theorem batch_loop_iterations (fetch : Transport) (order : Order SegmentResult)
    (segments : list string) (w : World) :
  (forall i l, order i l ≡ₚ l) ->
  (forall (C : Z) (fuel : nat),
     1 <= C ->
     (Z.of_nat (length segments) + C - 1) / C <= Z.of_nat fuel ->
     batchLoop fuel fetch order segments (Js.Num C) (Js.Num 0) w <> None)
  /\ (forall (C : Z) (fuel : nat),
        1 <= C ->
        (forall url, url ∈ segments -> fetchOk fetch url = true) ->
        (batchLoop fuel fetch order segments (Js.Num C) (Js.Num 0) w <> None
         <-> (Z.of_nat (length segments) + C - 1) / C <= Z.of_nat fuel))
  /\ ((0 < length segments)%nat ->
      forall fuel : nat,
        batchLoop fuel fetch order segments (Js.Num 0) (Js.Num 0) w = None).
Proof.
  intros order_perm.
  assert (Hbatches : forall C : Z, 1 <= C ->
            (1 <= Z.to_nat C)%nat
            /\ Z.of_nat (length (chunks (Z.to_nat C) (drop 0 segments)))
               = (Z.of_nat (length segments) + C - 1) / C).
  { intros C HC. assert (Hc : (1 <= Z.to_nat C)%nat) by lia.
    split; [exact Hc |].
    simpl drop. rewrite (chunks_length _ Hc), Z2Nat.id by lia. reflexivity. }
  split; [| split].
  - intros C fuel HC Hfuel. destruct (Hbatches C HC) as [Hc Hlen].
    rewrite <- (Z2Nat.id C) by lia.
    destruct (batchLoop_returns fetch order order_perm segments (Z.to_nat C) Hc
                fuel 0 w) as (r & w' & Hr); [lia |].
    change (Z.of_nat 0) with 0 in Hr. by rewrite Hr.
  - intros C fuel HC Hok. destruct (Hbatches C HC) as [Hc Hlen].
    rewrite <- (Z2Nat.id C) at 1 by lia.
    destruct (decide ((Z.of_nat (length segments) + C - 1) / C <= Z.of_nat fuel))
      as [Hfuel | Hfuel].
    + pose proof (batchLoop_ok fetch order order_perm segments (Z.to_nat C) Hc
                    fuel 0 w) as Hr.
      change (Z.of_nat 0) with 0 in Hr. rewrite Hr; [done | exact Hok | lia].
    + pose proof (batchLoop_short fetch order order_perm segments (Z.to_nat C) Hc
                    fuel 0 w) as Hr.
      change (Z.of_nat 0) with 0 in Hr. rewrite Hr; [done | exact Hok | lia].
  - intros Hlen fuel. by apply batchLoop_stuck.
Qed.

(** ** The download operation *)

Lemma downloadM3U8_media fuel fetch order url outputFile concurrency playlist w :
  fetchText fetch url = Ok playlist ->
  Js.includes playlist STREAM_INF = false ->
  downloadM3U8 fuel fetch order url outputFile concurrency w
  = processMediaPlaylist fuel fetch order playlist url outputFile
      (default (Js.Num 5) concurrency) w.
Proof.
  intros Hfetch Hmedia.
  destruct fuel; simpl; unfold tryCatch, bind, lift, throw;
    rewrite Hfetch, Hmedia;
    by destruct (processMediaPlaylist _ _ _ _ _ _ _ w) as [[[[]|e] w']|].
Qed.

Lemma downloadSegment_error fetch url e :
  downloadSegment fetch url = Throw e ->
  fetchOk fetch url = false /\ e = fetchError fetch url.
Proof.
  unfold downloadSegment, fetchOk, fetchError.
  destruct (fetch url) as [r|reason].
  - destruct (ok r); simpl; [discriminate |]. by intros [= <-].
  - by intros [= <-].
Qed.

(** C6, as amended.  When a segment fetch fails, the download of a media
    playlist fails with the error of a fetch of the first batch that has a
    failing fetch: for a response that is not 2xx, an [Error] whose message
    names the URL, the status and the status text; for a fetch that the
    transport rejects, the transport's own error as it is.  The batches
    before that batch are written, no segment of that batch is written, and
    the file is closed. *)
Theorem failed_fetch_aborts (fetch : Transport) (order : Order SegmentResult)
    (url outputFile playlist failing : string) (C : Z) (fuel : nat) (w : World) :
  (forall i l, order i l ≡ₚ l) ->
  1 <= C ->
  fetchText fetch url = Ok playlist ->
  Js.includes playlist STREAM_INF = false ->
  failing ∈ extractSegments playlist url ->
  fetchOk fetch failing = false ->
  (Z.of_nat (length (extractSegments playlist url)) + C - 1) / C <= Z.of_nat fuel ->
  exists n batch bad w',
    let batches := chunks (Z.to_nat C) (extractSegments playlist url) in
    downloadM3U8 fuel fetch order url outputFile (Some (Js.Num C)) w
    = Some (Throw (fetchError fetch bad), w')
    /\ batches !! n = Some batch
    /\ bad ∈ batch /\ fetchOk fetch bad = false
    /\ (forall u, u ∈ concat (take n batches) -> fetchOk fetch u = true)
    /\ closed w' = true
    /\ content w' = payloads fetch (concat (take n batches))
    /\ trace w' = trace w ++ batchesTrace fetch 0 (take n batches)
                  ++ issues (n * Z.to_nat C) batch ++ [Closed].
Proof.
  intros order_perm HC Hfetch Hmedia Hin Hfail Hfuel.
  assert (Hc : (1 <= Z.to_nat C)%nat) by lia.
  set (segments := extractSegments playlist url) in *.
  destruct (batchLoop_rejected fetch order order_perm segments (Z.to_nat C) Hc
              fuel 0 (openFile w) failing)
    as (n & batch & bad & e & Hbatch & Hbefore & Hbad & He & Hloop).
  { exact Hin. }
  { exact Hfail. }
  { simpl drop. apply Nat2Z.inj_le.
    rewrite (chunks_length _ Hc), Z2Nat.id by lia. exact Hfuel. }
  destruct (downloadSegment_error _ _ _ He) as [Hbadfail ->].
  simpl drop in *. rewrite Z2Nat.id in Hloop by lia.
  change (Z.of_nat 0) with 0 in Hloop.
  exists n, batch, bad. eexists. cbv zeta.
  split.
  { rewrite (downloadM3U8_media _ _ _ _ _ _ _ _ Hfetch Hmedia).
    rewrite processMediaPlaylist_loop. fold segments. simpl default.
    rewrite Hloop. reflexivity. }
  rewrite runBatches_world. simpl.
  split; [exact Hbatch | split; [exact Hbad | split; [exact Hbadfail |]]].
  split; [exact Hbefore | split; [reflexivity | split; [reflexivity |]]].
  by rewrite <- !app_assoc.
Qed.

(** ** The default concurrency *)

(** C7, as amended.  When the concurrency argument is left out, the
    download function runs with its declared default, 5; the command line
    supplies 10 when the third positional argument is omitted, and the
    download then runs with 10. *)
Theorem default_concurrency :
  (forall fuel fetch order url outputFile w,
     downloadM3U8 fuel fetch order url outputFile None w
     = downloadM3U8 fuel fetch order url outputFile (Some (Js.Num 5)) w)
  /\ (forall url outputFile, cliConcurrency [url; outputFile] = Js.Num 10)
  /\ (forall fuel fetch order url outputFile w,
        main fuel fetch order [url; outputFile] w
        = match downloadM3U8 fuel fetch order url outputFile
                  (Some (Js.Num 10)) w with
          | None => None
          | Some (inl _, w') => Some (Finished, w')
          | Some (inr _, w') => Some (ExitCode 1, w')
          end).
Proof.
  split; [| split].
  - intros fuel. by destruct fuel.
  - reflexivity.
  - reflexivity.
Qed.

(** ** A run *)

Lemma lastFirst_perm i l : lastFirst i l ≡ₚ l.
Proof. symmetry. apply Permutation_rev. Defined.

Lemma serving_ok url : fetchOk serving url = true.
Proof. unfold fetchOk, serving. by destruct (String.eqb url mediaUrl). Defined.

(** C7, as stated, fails: without the argument the download does not run
    with concurrency 10. *)
Lemma default_is_not_ten :
  downloadM3U8 4 serving lastFirst mediaUrl "out.ts" None emptyWorld
  <> downloadM3U8 4 serving lastFirst mediaUrl "out.ts" (Some (Js.Num 10))
       emptyWorld.
Proof. vm_compute. discriminate. Qed.

Lemma segments_written_in_order_witness :
  exists w',
    processMediaPlaylist 3 serving lastFirst mediaPlaylist mediaUrl "out.ts"
      (Js.Num 2) emptyWorld = Some (Ok tt, w')
    /\ content w'
       = "<http://h/v/s0.ts><http://h/v/s1.ts><http://h/v/s2.ts>"
         +:+ "<http://h/v/s3.ts><http://h/v/s4.ts><http://h/v/s5.ts>".
Proof.
  destruct (segments_written_in_order serving lastFirst lastFirst_perm
              mediaPlaylist mediaUrl "out.ts" 2 ltac:(lia)
              (fun url _ => serving_ok url) 3 ltac:(by vm_compute) emptyWorld)
    as (w' & events & Hrun & _ & Hcontent & _).
  exists w'. split; [exact Hrun |]. rewrite Hcontent. reflexivity.
Defined.

Lemma batches_in_sequence_witness :
  exists w',
    processMediaPlaylist 3 serving lastFirst mediaPlaylist mediaUrl "out.ts"
      (Js.Num 4) emptyWorld = Some (Ok tt, w')
    /\ trace w'
       = [Issued (Js.Num 0) "http://h/v/s0.ts"; Issued (Js.Num 1) "http://h/v/s1.ts";
          Issued (Js.Num 2) "http://h/v/s2.ts"; Issued (Js.Num 3) "http://h/v/s3.ts";
          Wrote (Js.Num 0) "<http://h/v/s0.ts>"; Wrote (Js.Num 1) "<http://h/v/s1.ts>";
          Wrote (Js.Num 2) "<http://h/v/s2.ts>"; Wrote (Js.Num 3) "<http://h/v/s3.ts>";
          Issued (Js.Num 4) "http://h/v/s4.ts"; Issued (Js.Num 5) "http://h/v/s5.ts";
          Wrote (Js.Num 4) "<http://h/v/s4.ts>"; Wrote (Js.Num 5) "<http://h/v/s5.ts>";
          Closed].
Proof.
  destruct (batches_in_sequence serving lastFirst lastFirst_perm
              mediaPlaylist mediaUrl "out.ts" 4 ltac:(lia)
              (fun url _ => serving_ok url) 3 ltac:(by vm_compute) emptyWorld)
    as (_ & _ & _ & (w' & Hrun & Htrace & _) & _).
  exists w'. split; [exact Hrun |]. rewrite Htrace. reflexivity.
Defined.

Lemma batch_loop_iterations_witness :
  batchLoop 3 serving lastFirst (extractSegments mediaPlaylist mediaUrl)
    (Js.Num 2) (Js.Num 0) emptyWorld <> None
  /\ batchLoop 2 serving lastFirst (extractSegments mediaPlaylist mediaUrl)
       (Js.Num 2) (Js.Num 0) emptyWorld = None
  /\ batchLoop 1000 serving lastFirst (extractSegments mediaPlaylist mediaUrl)
       (Js.Num 0) (Js.Num 0) emptyWorld = None.
Proof.
  destruct (batch_loop_iterations serving lastFirst
              (extractSegments mediaPlaylist mediaUrl) emptyWorld lastFirst_perm)
    as (Hreturns & Hexact & Hstuck).
  split; [| split].
  - apply Hreturns; [lia | by vm_compute].
  - destruct (batchLoop 2 serving lastFirst _ (Js.Num 2) (Js.Num 0) emptyWorld)
      eqn:Hrun; [| reflexivity].
    exfalso.
    assert (Hfuel : (Z.of_nat (length (extractSegments mediaPlaylist mediaUrl))
                     + 2 - 1) / 2 <= Z.of_nat 2).
    { apply (Hexact 2 2%nat); [lia | intros url _; apply serving_ok |].
      rewrite Hrun. discriminate. }
    vm_compute in Hfuel. by apply Hfuel.
  - apply Hstuck. vm_compute. lia.
Defined.

Lemma failed_fetch_aborts_witness :
  exists bad w',
    downloadM3U8 3 missing lastFirst mediaUrl "out.ts" (Some (Js.Num 2)) emptyWorld
    = Some (Throw (fetchError missing bad), w')
    /\ fetchOk missing bad = false
    /\ closed w' = true.
Proof.
  destruct (failed_fetch_aborts missing lastFirst mediaUrl "out.ts" mediaPlaylist
              "http://h/v/s3.ts" 2 3 emptyWorld lastFirst_perm)
    as (n & batch & bad & w' & Hrun & _ & _ & Hbad & _ & Hclosed & _).
  - lia.
  - reflexivity.
  - reflexivity.
  - vm_compute. do 3 right. by left.
  - reflexivity.
  - by vm_compute.
  - by exists bad, w'.
Defined.

(** C6, as stated, fails: when the transport rejects a fetch, the download
    fails with the transport's error, which is not wrapped and does not
    name the URL. *)
Lemma rejected_fetch_not_wrapped :
  fetchOk refusing "http://h/v/s3.ts" = false
  /\ exists e w',
       downloadM3U8 3 refusing lastFirst mediaUrl "out.ts" (Some (Js.Num 2))
         emptyWorld = Some (Throw e, w')
       /\ forall url, ~ namesUrl e url.
Proof.
  split; [reflexivity |].
  eexists _, _. split; [vm_compute; reflexivity |].
  intros url [rest Hrest]. discriminate.
Qed.

(** * Further properties *)

(** ** The download operation, step by step *)

Lemma downloadM3U8_unfold fuel fetch order url outputFile concurrency w :
  downloadM3U8 fuel fetch order url outputFile concurrency w
  = match fetchText fetch url with
    | inr e => Some (Throw e, w)
    | inl playlist =>
        if Js.includes playlist STREAM_INF then
          match extractHighestQualityStream playlist url with
          | inr e => Some (Throw e, w)
          | inl streamUrl =>
              match fuel with
              | O => None
              | S fuel' =>
                  downloadM3U8 fuel' fetch order streamUrl outputFile
                    (Some (default (Js.Num 5) concurrency)) w
              end
          end
        else
          processMediaPlaylist fuel fetch order playlist url outputFile
            (default (Js.Num 5) concurrency) w
    end.
Proof.
  destruct fuel; simpl; unfold tryCatch, bind, lift, throw;
    destruct (fetchText fetch url) as [playlist|e]; try reflexivity;
    destruct (Js.includes playlist STREAM_INF);
    try (by destruct (processMediaPlaylist _ _ _ _ _ _ _ w) as [[[[]|e] w']|]);
    destruct (extractHighestQualityStream playlist url) as [streamUrl|e];
    try reflexivity.
  by destruct (downloadM3U8 fuel _ _ _ _ _ w) as [[[[]|e] w']|].
Qed.

(** X1.  When the fetch of the playlist fails, the download fails with the
    error of [fetchText] (for a response that is not 2xx, an [Error] whose
    message names the URL, the status and the status text; for a rejected
    fetch, the transport's error) before the output file is opened: the
    world is left as it was. *)
Theorem playlist_fetch_failure (fuel : nat) (fetch : Transport)
    (order : Order SegmentResult) (url outputFile : string)
    (concurrency : option Js.number) (w : World) :
  fetchOk fetch url = false ->
  downloadM3U8 fuel fetch order url outputFile concurrency w
  = Some (Throw match fetch url with
                | Responds r =>
                    Error ("Failed to fetch " +:+ url +:+ ": "
                           +:+ Js.ofNat (status r) +:+ " " +:+ statusText r)
                | Rejects reason => Rejection reason
                end, w).
Proof.
  intros Hfail. rewrite downloadM3U8_unfold. unfold fetchText, fetchOk in *.
  destruct (fetch url) as [r|reason]; [| reflexivity].
  by rewrite Hfail.
Qed.

Lemma playlist_fetch_failure_witness :
  downloadM3U8 3 unavailable lastFirst mediaUrl "out.ts" None emptyWorld
  = Some (Throw (Error "Failed to fetch http://h/v/p.m3u8: 503 Service Unavailable"),
          emptyWorld).
Proof.
  apply (playlist_fetch_failure 3 unavailable lastFirst mediaUrl "out.ts" None
           emptyWorld).
  reflexivity.
Defined.

(** X2.  A master playlist hands the download over to the variant it
    selects: the run is the run of the download of the selected URL, with
    the same output file and the same concurrency (the default 5 when the
    caller gave none). *)
Theorem master_hands_over (fuel : nat) (fetch : Transport)
    (order : Order SegmentResult) (url outputFile playlist streamUrl : string)
    (concurrency : option Js.number) (w : World) :
  fetchText fetch url = Ok playlist ->
  Js.includes playlist STREAM_INF = true ->
  extractHighestQualityStream playlist url = Ok streamUrl ->
  downloadM3U8 (S fuel) fetch order url outputFile concurrency w
  = downloadM3U8 fuel fetch order streamUrl outputFile
      (Some (default (Js.Num 5) concurrency)) w.
Proof.
  intros Hfetch Hmaster Hselect.
  rewrite downloadM3U8_unfold, Hfetch, Hmaster, Hselect. reflexivity.
Qed.

Lemma master_hands_over_witness :
  downloadM3U8 4 redirecting lastFirst masterUrl "out.ts" None emptyWorld
  = downloadM3U8 3 redirecting lastFirst mediaUrl "out.ts" (Some (Js.Num 5))
      emptyWorld.
Proof.
  apply (master_hands_over 3 redirecting lastFirst masterUrl "out.ts"
           masterPlaylist mediaUrl None emptyWorld); reflexivity.
Defined.

(** X3.  Nothing bounds the chain of master playlists: when a master
    playlist selects its own URL, the download never returns. *)
Theorem cyclic_master_never_returns (fetch : Transport)
    (order : Order SegmentResult) (url outputFile playlist : string)
    (concurrency : option Js.number) (w : World) :
  fetchText fetch url = Ok playlist ->
  Js.includes playlist STREAM_INF = true ->
  extractHighestQualityStream playlist url = Ok url ->
  forall fuel : nat,
    downloadM3U8 fuel fetch order url outputFile concurrency w = None.
Proof.
  intros Hfetch Hmaster Hselect fuel. revert concurrency.
  induction fuel as [|fuel IH]; intros concurrency;
    rewrite downloadM3U8_unfold, Hfetch, Hmaster, Hselect; [reflexivity | apply IH].
Qed.

Lemma cyclic_master_never_returns_witness :
  downloadM3U8 1000 looping lastFirst masterUrl "out.ts" None emptyWorld = None.
Proof.
  apply (cyclic_master_never_returns looping lastFirst masterUrl "out.ts"
           loopingPlaylist None emptyWorld); reflexivity.
Defined.

(** ** What every run keeps *)

Lemma written_app a b : written (a ++ b) = written a +:+ written b.
Proof.
  induction a as [|[i u|i d|] a IH]; simpl; [reflexivity | exact IH | | exact IH].
  by rewrite IH, append_assoc.
Qed.

Lemma extends_refl w : extends w w [].
Proof.
  unfold extends. simpl.
  rewrite app_nil_r, append_nil_r, Nat.add_0_r.
  repeat split. apply not_elem_of_nil.
Qed.

Lemma extends_trans w w1 w2 e1 e2 :
  extends w w1 e1 -> extends w1 w2 e2 -> extends w w2 (e1 ++ e2).
Proof.
  intros (Hc1 & Ht1 & Hn1 & Hd1 & Hp1) (Hc2 & Ht2 & Hn2 & Hd2 & Hp2).
  unfold extends.
  rewrite Hc2, Hc1, Ht2, Ht1, Hd2, Hd1, Hp2, Hp1.
  rewrite written_app, List.filter_app, length_app, append_assoc, <- app_assoc.
  repeat split; [| lia].
  intros [H | H]%elem_of_app; [by apply Hn1 | by apply Hn2].
Qed.

Lemma issueBatch_extends i batch w :
  exists events, extends w (issueBatch i batch w) events.
Proof.
  unfold issueBatch. generalize (imap pair batch) as l. intros l. revert w.
  induction l as [|[j url] l IH]; intros w; simpl.
  - exists []. apply extends_refl.
  - destruct (IH (issue (Js.add i (Js.Num (Z.of_nat j))) url w)) as [events He].
    eexists. eapply extends_trans; [| exact He].
    instantiate (1 := [Issued (Js.add i (Js.Num (Z.of_nat j))) url]).
    unfold extends, issue. simpl. rewrite append_nil_r, Nat.add_0_r.
    repeat split. by intros [=]%list_elem_of_singleton.
Qed.

Lemma writeResults_extends results w :
  exists events, extends w (writeResults results w) events.
Proof.
  unfold writeResults. revert w.
  induction results as [|r results IH]; intros w; simpl.
  - exists []. apply extends_refl.
  - destruct (IH (writeSegment (index r) (data r) w)) as [events He].
    eexists. eapply extends_trans; [| exact He].
    instantiate (1 := [Wrote (index r) (data r)]).
    unfold extends, writeSegment. simpl. rewrite append_nil_r.
    repeat split; [| lia]. by intros [=]%list_elem_of_singleton.
Qed.

Lemma batchStep_extends fetch order segments concurrency i w r w' :
  batchStep fetch order segments concurrency i w = Some (r, w') ->
  exists events, extends w w' events.
Proof.
  unfold batchStep, bind, effect.
  destruct (issueBatch_extends i
              (Js.slice segments i (Js.add i concurrency)) w) as [e1 He1].
  destruct (promiseAll _ _) as [[results|e]|]; [| | discriminate].
  - intros [= <- <-].
    destruct (writeResults_extends (sortResults results)
                (issueBatch i (Js.slice segments i (Js.add i concurrency)) w))
      as [e2 He2].
    eexists. eapply extends_trans; eassumption.
  - intros [= <- <-]. by exists e1.
Qed.

Lemma batchLoop_extends fuel fetch order segments concurrency i w r w' :
  batchLoop fuel fetch order segments concurrency i w = Some (r, w') ->
  exists events, extends w w' events.
Proof.
  revert i w. induction fuel as [|fuel IH]; intros i w;
    rewrite batchLoop_unfold;
    destruct (Js.lt i (Js.Num (Z.of_nat (length segments)))).
  - discriminate.
  - intros [= <- <-]. exists []. apply extends_refl.
  - unfold bind.
    destruct (batchStep fetch order segments concurrency i w)
      as [[[[]|e] w1]|] eqn:Hstep; [| | discriminate].
    + intros Hrest.
      destruct (batchStep_extends _ _ _ _ _ _ _ _ Hstep) as [e1 He1].
      destruct (IH _ _ Hrest) as [e2 He2].
      eexists. eapply extends_trans; eassumption.
    + intros [= <- <-]. by eapply batchStep_extends.
  - intros [= <- <-]. exists []. apply extends_refl.
Qed.

(** X4.  Whatever the playlist, the transport, the concurrency and the order
    of settlement, when [processMediaPlaylist] returns or throws, the file
    has been opened empty and closed exactly once, after every write; the
    file holds exactly the data of the writes, in the order of the writes,
    and the progress bar counts the writes. *)
Theorem file_closed_once (fuel : nat) (fetch : Transport)
    (order : Order SegmentResult) (playlist baseUrl outputFile : string)
    (concurrency : Js.number) (w : World) (r : Throws unit) (w' : World) :
  processMediaPlaylist fuel fetch order playlist baseUrl outputFile concurrency w
  = Some (r, w') ->
  exists events,
    trace w' = trace w ++ events ++ [Closed]
    /\ (Closed ∉ events)
    /\ closed w' = true
    /\ content w' = written events
    /\ progress w' = length (List.filter isWrote events).
Proof.
  rewrite processMediaPlaylist_loop.
  destruct (batchLoop _ _ _ _ _ _ (openFile w)) as [[r0 w0]|] eqn:Hloop;
    [| discriminate].
  intros [= <- <-].
  destruct (batchLoop_extends _ _ _ _ _ _ _ _ _ Hloop)
    as (events & _ & Ht & Hn & Hd & Hp).
  exists events. simpl in *. rewrite Ht, Hd, Hp.
  by rewrite <- app_assoc.
Qed.

Lemma file_closed_once_witness :
  exists events,
    trace (closeFile (issueBatch (Js.Num 0) ["http://h/v/s3.ts"] (openFile emptyWorld)))
    = trace emptyWorld ++ events ++ [Closed]
    /\ (Closed ∉ events)
    /\ closed (closeFile (issueBatch (Js.Num 0) ["http://h/v/s3.ts"]
                            (openFile emptyWorld))) = true
    /\ content (closeFile (issueBatch (Js.Num 0) ["http://h/v/s3.ts"]
                             (openFile emptyWorld))) = written events
    /\ progress (closeFile (issueBatch (Js.Num 0) ["http://h/v/s3.ts"]
                              (openFile emptyWorld)))
       = length (List.filter isWrote events).
Proof.
  apply (file_closed_once 1 missing lastFirst "s3.ts" mediaUrl "out.ts"
           (Js.Num 1) emptyWorld (Throw (fetchError missing "http://h/v/s3.ts"))).
  reflexivity.
Defined.

(** X5.  Whenever [downloadM3U8] returns or throws, either it threw before
    the output file was opened and the world is as it was, or the output
    file has been closed; after a successful download it has been closed. *)
Theorem download_leaves_no_open_file (fuel : nat) (fetch : Transport)
    (order : Order SegmentResult) (url outputFile : string)
    (concurrency : option Js.number) (w : World) (r : Throws unit) (w' : World) :
  downloadM3U8 fuel fetch order url outputFile concurrency w = Some (r, w') ->
  (exists e, r = Throw e /\ w' = w) \/ closed w' = true.
Proof.
  revert url concurrency. induction fuel as [|fuel IH]; intros url concurrency;
    rewrite downloadM3U8_unfold;
    (destruct (fetchText fetch url) as [playlist|e];
       [| intros [= <- <-]; left; by eexists]);
    (destruct (Js.includes playlist STREAM_INF);
       [ destruct (extractHighestQualityStream playlist url) as [streamUrl|e];
           [| intros [= <- <-]; left; by eexists]
       | intros Hrun; right;
         by destruct (file_closed_once _ _ _ _ _ _ _ _ _ _ Hrun)
           as (? & _ & _ & ? & _) ]).
  - discriminate.
  - apply IH.
Qed.

Lemma download_leaves_no_open_file_witness :
  (exists e, Ok tt = Throw e
             /\ closeFile (runBatches serving 0
                             (chunks 5 (extractSegments mediaPlaylist mediaUrl))
                             (openFile emptyWorld)) = emptyWorld)
  \/ closed (closeFile (runBatches serving 0
                          (chunks 5 (extractSegments mediaPlaylist mediaUrl))
                          (openFile emptyWorld))) = true.
Proof.
  apply (download_leaves_no_open_file 4 redirecting lastFirst masterUrl "out.ts"
           None emptyWorld).
  vm_compute. reflexivity.
Defined.

(** ** Concurrency values that are not positive integers *)

(** A batch without URLs issues nothing, writes nothing and succeeds. *)
Lemma batchStep_empty fetch order segments concurrency i w :
  (forall j l, order j l ≡ₚ l) ->
  Js.slice segments i (Js.add i concurrency) = [] ->
  batchStep fetch order segments concurrency i w = Some (Ok tt, w).
Proof.
  intros order_perm Hempty. unfold batchStep, bind, effect. rewrite Hempty.
  change (batchPromises fetch i []) with (Ok <$> @nil SegmentResult).
  rewrite (promiseAll_fulfilled _ (order_perm i)). reflexivity.
Qed.

(** X6.  A playlist in which every line starts with [#] or is blank has no
    segment: whatever the concurrency (0 and [NaN] included) and the
    transport, [processMediaPlaylist] returns at once, having fetched
    nothing and left an empty, closed file. *)
Theorem no_segment_line_empty_file (fuel : nat) (fetch : Transport)
    (order : Order SegmentResult) (playlist baseUrl outputFile : string)
    (concurrency : Js.number) (w : World) :
  (forall line, line ∈ Js.split newline playlist -> segmentLine line = false) ->
  processMediaPlaylist fuel fetch order playlist baseUrl outputFile concurrency w
  = Some (Ok tt, {| content := ""; closed := true; progress := 0;
                    trace := trace w ++ [Closed] |}).
Proof.
  intros Hnone. rewrite processMediaPlaylist_loop, extractSegments_filter.
  assert (List.filter segmentLine (Js.split newline playlist) = []) as ->.
  { induction (Js.split newline playlist) as [|line lines IH]; [reflexivity |].
    simpl. rewrite (Hnone line) by (by left).
    apply IH. intros l Hl. apply Hnone. by right. }
  rewrite batchLoop_unfold. simpl.
  by destruct concurrency.
Qed.

Lemma no_segment_line_empty_file_witness :
  processMediaPlaylist 0 unavailable lastFirst commentsOnly mediaUrl "out.ts"
    (Js.Num 0) emptyWorld
  = Some (Ok tt, {| content := ""; closed := true; progress := 0;
                    trace := [Closed] |}).
Proof.
  apply (no_segment_line_empty_file 0 unavailable lastFirst commentsOnly mediaUrl
           "out.ts" (Js.Num 0) emptyWorld).
  intros line Hin. apply list_elem_of_In in Hin. simpl in Hin.
  destruct Hin as [<- | [<- | [<- | [<- | [<- | []]]]]]; reflexivity.
Defined.

Lemma batchLoop_NaN fuel fetch order segments w :
  (forall j l, order j l ≡ₚ l) ->
  batchLoop (S fuel) fetch order segments Js.NaN (Js.Num 0) w = Some (Ok tt, w).
Proof.
  intros order_perm. rewrite batchLoop_unfold.
  destruct (Js.lt (Js.Num 0) (Js.Num (Z.of_nat (length segments))));
    [| reflexivity].
  unfold bind. rewrite batchStep_empty; [| exact order_perm |].
  - rewrite batchLoop_unfold. reflexivity.
  - unfold Js.slice. simpl. rewrite Z.min_l by lia. reflexivity.
Qed.

(** X7.  A third command-line argument that [parseInt] cannot read gives the
    concurrency [NaN]: on a media playlist the tool then fetches no segment,
    leaves an empty output file and finishes as if the download had
    succeeded. *)
Theorem unreadable_concurrency_downloads_nothing (fuel : nat) (fetch : Transport)
    (order : Order SegmentResult) (url outputFile arg playlist : string)
    (w : World) :
  (forall j l, order j l ≡ₚ l) ->
  arg <> "" ->
  Js.parseInt arg = Js.NaN ->
  fetchText fetch url = Ok playlist ->
  Js.includes playlist STREAM_INF = false ->
  main (S fuel) fetch order [url; outputFile; arg] w
  = Some (Finished, {| content := ""; closed := true; progress := 0;
                       trace := trace w ++ [Closed] |}).
Proof.
  intros order_perm Harg Hnan Hfetch Hmedia. unfold main. simpl length.
  assert (cliConcurrency [url; outputFile; arg] = Js.NaN) as ->.
  { unfold cliConcurrency. simpl. by destruct arg. }
  simpl default.
  rewrite (downloadM3U8_media _ _ _ _ _ _ _ _ Hfetch Hmedia).
  rewrite processMediaPlaylist_loop. simpl default.
  rewrite batchLoop_NaN by exact order_perm. reflexivity.
Qed.

Lemma unreadable_concurrency_downloads_nothing_witness :
  main 1 serving lastFirst [mediaUrl; "out.ts"; "fast"] emptyWorld
  = Some (Finished, {| content := ""; closed := true; progress := 0;
                       trace := [Closed] |}).
Proof.
  apply (unreadable_concurrency_downloads_nothing 0 serving lastFirst mediaUrl
           "out.ts" "fast" mediaPlaylist emptyWorld).
  - exact lastFirst_perm.
  - discriminate.
  - reflexivity.
  - reflexivity.
  - reflexivity.
Defined.

Lemma slice_below_zero {A} (a : list A) (z c : Z) :
  z < 0 -> c < 0 ->
  Js.slice a (Js.Num z) (Js.add (Js.Num z) (Js.Num c)) = [].
Proof.
  intros Hz Hc. unfold Js.slice, Js.add, Js.toInteger.
  destruct (Z.ltb_spec z 0); [| lia].
  destruct (Z.ltb_spec (z + c) 0); [| lia].
  replace (Z.to_nat _) with 0%nat by lia. reflexivity.
Qed.

Lemma batchLoop_below_zero fuel fetch order segments (z c : Z) w :
  (forall j l, order j l ≡ₚ l) ->
  (0 < length segments)%nat -> z < 0 -> c < 0 ->
  batchLoop fuel fetch order segments (Js.Num c) (Js.Num z) w = None.
Proof.
  intros order_perm Hlen Hz Hc. revert z Hz.
  induction fuel as [|fuel IH]; intros z Hz; rewrite batchLoop_unfold;
    (assert (Js.lt (Js.Num z) (Js.Num (Z.of_nat (length segments))) = true)
       as -> by (apply Z.ltb_lt; lia)); [reflexivity |].
  unfold bind.
  rewrite batchStep_empty; [| exact order_perm | by apply slice_below_zero].
  apply IH. lia.
Qed.

(** A batch of the loop at a natural index, whatever the concurrency: when
    its fetches succeed it is issued and written. *)
Lemma batchStep_sliced fetch order segments concurrency (k : nat) w :
  (forall j l, order j l ≡ₚ l) ->
  (forall url,
     url ∈ Js.slice segments (Js.Num (Z.of_nat k))
             (Js.add (Js.Num (Z.of_nat k)) concurrency) ->
     fetchOk fetch url = true) ->
  batchStep fetch order segments concurrency (Js.Num (Z.of_nat k)) w
  = Some (Ok tt,
          runBatch fetch k
            (Js.slice segments (Js.Num (Z.of_nat k))
               (Js.add (Js.Num (Z.of_nat k)) concurrency)) w).
Proof.
  intros order_perm Hok. unfold batchStep, bind, effect.
  set (batch := Js.slice _ _ _) in *.
  rewrite batchPromises_ok by exact Hok.
  rewrite (promiseAll_fulfilled _ (order_perm _)).
  rewrite sortResults_batch, issueBatch_issues.
  unfold batchResults. rewrite writeResults_writes.
  unfold runBatch, runIssues. simpl. by rewrite <- app_assoc.
Qed.

(** X8.  With a negative concurrency and at least one segment, the first
    batch takes the segments but the last [-C] ones, and when its fetches
    succeed the index goes below zero and moves away from the length: the
    loop never ends and [processMediaPlaylist] never returns. *)
Theorem negative_concurrency_never_returns (fetch : Transport)
    (order : Order SegmentResult) (playlist baseUrl outputFile : string)
    (C : Z) (w : World) :
  (forall j l, order j l ≡ₚ l) ->
  C < 0 ->
  extractSegments playlist baseUrl <> [] ->
  (forall url, url ∈ extractSegments playlist baseUrl ->
               fetchOk fetch url = true) ->
  forall fuel : nat,
    processMediaPlaylist fuel fetch order playlist baseUrl outputFile
      (Js.Num C) w = None.
Proof.
  intros order_perm HC Hne Hok fuel. rewrite processMediaPlaylist_loop.
  set (segments := extractSegments playlist baseUrl) in *.
  assert (Hlen : (0 < length segments)%nat)
    by (destruct segments; [done | simpl; lia]).
  assert (batchLoop fuel fetch order segments (Js.Num C) (Js.Num 0) (openFile w)
          = None) as ->; [| reflexivity].
  destruct fuel as [|fuel]; rewrite batchLoop_unfold;
    (assert (Js.lt (Js.Num 0) (Js.Num (Z.of_nat (length segments))) = true)
       as -> by (apply Z.ltb_lt; lia)); [reflexivity |].
  unfold bind.
  rewrite (batchStep_sliced fetch order segments (Js.Num C) 0 _ order_perm).
  - apply batchLoop_below_zero; [exact order_perm | exact Hlen | simpl; lia | lia].
  - intros url Hin. apply Hok. unfold Js.slice in Hin.
    apply list_elem_of_lookup in Hin as [j Hj].
    apply lookup_take_Some in Hj as [Hj _]. rewrite lookup_drop in Hj.
    by eapply list_elem_of_lookup_2.
Qed.

Lemma negative_concurrency_never_returns_witness :
  processMediaPlaylist 1000 serving lastFirst mediaPlaylist mediaUrl "out.ts"
    (Js.Num (-2)) emptyWorld = None.
Proof.
  apply (negative_concurrency_never_returns serving lastFirst mediaPlaylist
           mediaUrl "out.ts" (-2) emptyWorld).
  - exact lastFirst_perm.
  - lia.
  - discriminate.
  - intros url _. apply serving_ok.
Defined.

(** ** The URL resolver at the edges *)

Lemma removelast_app_nonempty {A} (l1 l2 : list A) :
  l2 <> [] -> Js.pop (l1 ++ l2) = l1 ++ Js.pop l2.
Proof. intros H. by apply removelast_app. Qed.

Lemma startsWith_app s p : Js.startsWith (p +:+ s) p = true.
Proof.
  induction p as [|c p IH]; [by destruct s |].
  simpl. by rewrite Ascii.eqb_refl, IH.
Qed.

(** The directory of a base [origin/path] begins with [origin]. *)
Lemma baseDir_origin origin path :
  exists tail,
    Js.join "/" (Js.pop (Js.split "/" (origin +:+ "/" +:+ path)))
    = origin +:+ tail.
Proof.
  destruct (lacks "/" path) eqn:Hpath.
  - exists "". rewrite (baseDir_last_slash origin path Hpath).
    by rewrite append_nil_r.
  - destruct (last_occurrence _ _ Hpath) as (a & b & -> & Hb).
    exists ("/" +:+ a).
    replace (origin +:+ "/" +:+ a +:+ String "/" b)
      with ((origin +:+ "/" +:+ a) +:+ "/" +:+ b)
      by (by rewrite !append_assoc).
    rewrite (baseDir_last_slash _ b Hb). reflexivity.
Qed.

Lemma startsWith_trans s p q :
  Js.startsWith s p = true -> Js.startsWith p q = true ->
  Js.startsWith s q = true.
Proof.
  revert s p. induction q as [|c q IH]; intros s p; [by destruct s |].
  destruct p as [|y p]; simpl; [discriminate |].
  destruct s as [|x s]; simpl; [discriminate |].
  intros [Hyx Hs]%andb_true_iff [Hcy Hp]%andb_true_iff.
  apply Ascii.eqb_eq in Hyx as ->. rewrite Hcy. simpl. by apply (IH s p).
Qed.

Lemma origin_is_absolute scheme host :
  scheme = "http" \/ scheme = "https" ->
  isAbsolute (scheme +:+ "://" +:+ host) = true.
Proof.
  intros Hscheme. unfold isAbsolute. apply orb_true_iff.
  destruct Hscheme as [-> | ->]; [left | right].
  - apply (startsWith_app host "http://").
  - apply (startsWith_app host "https://").
Qed.

Lemma resolved_starts_with_origin reference scheme host path :
  scheme = "http" \/ scheme = "https" ->
  host <> "" -> lacks "/" host = true ->
  isAbsolute reference = false ->
  Js.startsWith
    (resolveUrl reference (scheme +:+ "://" +:+ host +:+ "/" +:+ path))
    (scheme +:+ "://" +:+ host) = true.
Proof.
  intros Hscheme Hhost Hlacks Hrel. unfold resolveUrl.
  unfold isAbsolute in Hrel. rewrite Hrel.
  destruct (Js.startsWith reference "/").
  - rewrite matchDomain_base by done. apply startsWith_app.
  - replace (scheme +:+ "://" +:+ host +:+ "/" +:+ path)
      with ((scheme +:+ "://" +:+ host) +:+ "/" +:+ path)
      by (by rewrite !append_assoc).
    destruct (baseDir_origin (scheme +:+ "://" +:+ host) path) as [tail ->].
    rewrite append_assoc. apply startsWith_app.
Qed.

Lemma resolved_absolute reference scheme host path :
  scheme = "http" \/ scheme = "https" ->
  host <> "" -> lacks "/" host = true ->
  isAbsolute (resolveUrl reference (scheme +:+ "://" +:+ host +:+ "/" +:+ path))
  = true.
Proof.
  intros Hscheme Hhost Hlacks.
  destruct (isAbsolute reference) eqn:Href.
  - unfold resolveUrl. unfold isAbsolute in Href. rewrite Href. exact Href.
  - pose proof (resolved_starts_with_origin _ _ _ path Hscheme Hhost Hlacks Href)
      as Hstart.
    pose proof (origin_is_absolute scheme host Hscheme) as Horigin.
    unfold isAbsolute in *.
    apply orb_true_iff. apply orb_true_iff in Horigin as [H | H];
      [left | right]; by eapply startsWith_trans.
Qed.

(** X9.  Against a base [scheme://host/path] with scheme http or https,
    every resolved URL is absolute: it begins with [http://] or
    [https://], and, unless the reference is absolute itself, with the
    [scheme://host] of the base.  Resolving it again, against any base,
    returns it unchanged. *)
Theorem resolved_url_is_absolute (reference scheme host path other : string) :
  scheme = "http" \/ scheme = "https" ->
  host <> "" -> lacks "/" host = true ->
  let resolved := resolveUrl reference (scheme +:+ "://" +:+ host +:+ "/" +:+ path) in
  isAbsolute resolved = true
  /\ (isAbsolute reference = false ->
      Js.startsWith resolved (scheme +:+ "://" +:+ host) = true)
  /\ resolveUrl resolved other = resolved.
Proof.
  intros Hscheme Hhost Hlacks resolved.
  pose proof (resolved_absolute reference _ _ path Hscheme Hhost Hlacks) as Habs.
  fold resolved in Habs.
  split; [exact Habs | split].
  - intros Hrel. by apply resolved_starts_with_origin.
  - unfold resolveUrl at 1. unfold isAbsolute in Habs. by rewrite Habs.
Qed.

Lemma resolved_url_is_absolute_witness :
  isAbsolute (resolveUrl "../a/seg.ts" "https://cdn.example/v/p.m3u8") = true
  /\ resolveUrl (resolveUrl "../a/seg.ts" "https://cdn.example/v/p.m3u8")
       "http://elsewhere/x/y" = "https://cdn.example/v/../a/seg.ts".
Proof.
  destruct (resolved_url_is_absolute "../a/seg.ts" "https" "cdn.example"
              "v/p.m3u8" "http://elsewhere/x/y") as (Habs & _ & Hagain);
    [by right | discriminate | reflexivity |].
  split; [exact Habs | etransitivity; [exact Hagain | reflexivity]].
Defined.

(** X10.  A base without a [/] after its authority loses its host: the
    relative reference takes the place of the host. *)
Theorem base_without_path_drops_host (reference scheme host : string) :
  lacks "/" host = true ->
  isAbsolute reference = false ->
  Js.startsWith reference "/" = false ->
  resolveUrl reference (scheme +:+ "://" +:+ host)
  = scheme +:+ "://" +:+ reference.
Proof.
  intros Hhost Habs Hroot. unfold resolveUrl.
  unfold isAbsolute in Habs. rewrite Habs, Hroot.
  replace (scheme +:+ "://" +:+ host)
    with ((scheme +:+ ":/") +:+ "/" +:+ host) by (by rewrite !append_assoc).
  rewrite (baseDir_last_slash _ host Hhost). by rewrite !append_assoc.
Qed.

Lemma base_without_path_drops_host_witness :
  resolveUrl "seg1.ts" "http://example.com" = "http://seg1.ts".
Proof.
  apply (base_without_path_drops_host "seg1.ts" "http" "example.com");
    reflexivity.
Defined.

Lemma stripPrefix_startsWith p s :
  Js.startsWith s p = false -> Js.stripPrefix p s = None.
Proof.
  revert s. induction p as [|c p IH]; intros s; [by destruct s |].
  destruct s as [|x s]; simpl; [reflexivity |].
  destruct (Ascii.eqb c x); simpl; [apply IH | reflexivity].
Qed.

(** X11.  Against a base that does not begin with [http], a reference that
    begins with [/] is returned as it is, still relative. *)
Theorem root_relative_needs_http_base (reference baseUrl : string) :
  Js.startsWith reference "/" = true ->
  Js.startsWith baseUrl "http" = false ->
  resolveUrl reference baseUrl = reference.
Proof.
  intros Hroot Hbase. unfold resolveUrl.
  rewrite (root_relative_not_absolute _ Hroot), Hroot.
  unfold matchDomain. by rewrite (stripPrefix_startsWith _ _ Hbase).
Qed.

Lemma root_relative_needs_http_base_witness :
  resolveUrl "/x/seg1.ts" "file:///media/dir/a.m3u8" = "/x/seg1.ts".
Proof.
  apply (root_relative_needs_http_base "/x/seg1.ts" "file:///media/dir/a.m3u8");
    reflexivity.
Defined.

(** ** Segment extraction, further *)

(** X12.  The segments of two playlists joined by a line break are the
    segments of the first followed by the segments of the second. *)
Theorem extractSegments_joined (first second baseUrl : string) :
  extractSegments (first +:+ LF +:+ second) baseUrl
  = extractSegments first baseUrl ++ extractSegments second baseUrl.
Proof.
  rewrite !extractSegments_filter.
  change (first +:+ LF +:+ second) with (first +:+ String newline second).
  by rewrite split_app, List.filter_app, map_app.
Qed.

(** X13.  Against a base [scheme://host/path] with scheme http or https,
    every segment URL is absolute, so that every fetch of a segment goes to
    a URL that begins with [http://] or [https://]; a segment given
    relative to the playlist stays on the host of the playlist. *)
Theorem segments_are_absolute (playlist scheme host path url : string) :
  scheme = "http" \/ scheme = "https" ->
  host <> "" -> lacks "/" host = true ->
  url ∈ extractSegments playlist (scheme +:+ "://" +:+ host +:+ "/" +:+ path) ->
  isAbsolute url = true
  /\ exists line,
       line ∈ Js.split newline playlist
       /\ (isAbsolute line = true /\ url = line
           \/ isAbsolute line = false
              /\ Js.startsWith url (scheme +:+ "://" +:+ host) = true).
Proof.
  intros Hscheme Hhost Hlacks Hin.
  rewrite extractSegments_filter in Hin.
  apply list_elem_of_fmap in Hin as (line & -> & Hline).
  apply list_elem_of_In, List.filter_In in Hline as [Hline _].
  apply list_elem_of_In in Hline.
  split; [by apply resolved_absolute |].
  exists line. split; [exact Hline |].
  destruct (isAbsolute line) eqn:Habs.
  - left. split; [reflexivity |]. unfold resolveUrl.
    unfold isAbsolute in Habs. by rewrite Habs.
  - right. split; [reflexivity |]. by apply resolved_starts_with_origin.
Qed.

Lemma segments_are_absolute_witness :
  isAbsolute "http://h/v/s4.ts" = true
  /\ exists line,
       line ∈ Js.split newline mediaPlaylist
       /\ (isAbsolute line = true /\ "http://h/v/s4.ts" = line
           \/ isAbsolute line = false
              /\ Js.startsWith "http://h/v/s4.ts" ("http" +:+ "://" +:+ "h") = true).
Proof.
  apply (segments_are_absolute mediaPlaylist "http" "h" "v/p.m3u8"
           "http://h/v/s4.ts").
  - by left.
  - discriminate.
  - reflexivity.
  - vm_compute. do 4 right. by left.
Defined.

(** ** The variant selector, further *)

Lemma selectStep_selectedFrom lines baseUrl k st st' :
  selectedFrom lines baseUrl st ->
  selectStep lines baseUrl k st = Ok st' ->
  selectedFrom lines baseUrl st'.
Proof.
  intros Hst.
  assert (Hnat : exists h, highestBandwidth st = Js.Num h /\ 0 <= h).
  { destruct Hst as [-> | (i & line & bw & uri & _ & _ & Hbw & _ & ->)];
      eexists; (split; [reflexivity | simpl; lia]). }
  destruct Hnat as (h & Hh & Hh0).
  destruct (lines !! k) as [line|] eqn:Hk.
  - rewrite (selectStep_variant _ _ _ _ _ Hk).
    destruct (variantBandwidth line) as [n|] eqn:Hn; [| by intros [= <-]].
    destruct (variantBandwidth_natural _ _ Hn) as (z & -> & Hz).
    rewrite Hh. unfold Js.gt, Js.lt.
    destruct (Z.ltb_spec h z); [| by intros [= <-]].
    destruct (lines !! (k + 1)%nat) as [uri|] eqn:Huri; [| discriminate].
    intros [= <-]. right. exists k, line, z, uri.
    repeat split; [exact Hk | exact Hn | lia | exact Huri].
  - unfold selectStep. rewrite Hk. by intros [= <-].
Qed.

Lemma selectLoop_selectedFrom lines baseUrl n k st st' :
  selectedFrom lines baseUrl st ->
  selectLoop n lines baseUrl k st = Ok st' ->
  selectedFrom lines baseUrl st'.
Proof.
  revert k st. induction n as [|n IH]; intros k st Hst; simpl.
  - by intros [= <-].
  - destruct (selectStep lines baseUrl k st) as [st1|e] eqn:Hstep; [| discriminate].
    apply IH. by eapply selectStep_selectedFrom.
Qed.

(** X14.  What variant selection returns is the empty string or the line
    that follows a stream-info tag line with a positive bandwidth, resolved
    against the URL of the playlist: no other text of the playlist is ever
    returned. *)
Theorem selected_url_follows_a_tag (playlist baseUrl url : string) :
  extractHighestQualityStream playlist baseUrl = Ok url ->
  url = ""
  \/ exists i line bw uri,
       Js.split newline playlist !! i = Some line
       /\ variantBandwidth line = Some (Js.Num bw) /\ 0 < bw
       /\ Js.split newline playlist !! (i + 1)%nat = Some uri
       /\ url = resolveUrl uri baseUrl.
Proof.
  unfold extractHighestQualityStream. cbv zeta.
  destruct (selectLoop _ _ _ _ _) as [st|e] eqn:Hloop; [| discriminate].
  intros [= <-].
  destruct (selectLoop_selectedFrom _ _ _ _ _ _ (or_introl eq_refl) Hloop)
    as [-> | (i & line & bw & uri & Hi & Hbw & Hpos & Huri & ->)].
  - by left.
  - right. by exists i, line, bw, uri.
Qed.

Lemma selected_url_follows_a_tag_witness :
  "http://h/v/p.m3u8" = ""
  \/ exists i line bw uri,
       Js.split newline masterPlaylist !! i = Some line
       /\ variantBandwidth line = Some (Js.Num bw) /\ 0 < bw
       /\ Js.split newline masterPlaylist !! (i + 1)%nat = Some uri
       /\ "http://h/v/p.m3u8" = resolveUrl uri masterUrl.
Proof.
  apply (selected_url_follows_a_tag masterPlaylist masterUrl "http://h/v/p.m3u8").
  reflexivity.
Defined.

Lemma selectLoop_throws lines baseUrl n k st e :
  selectLoop n lines baseUrl k st = Throw e ->
  e = undefinedStartsWith
  /\ exists i line,
       lines !! i = Some line /\ is_Some (variantBandwidth line)
       /\ lines !! (i + 1)%nat = None.
Proof.
  revert k st. induction n as [|n IH]; intros k st; simpl; [discriminate |].
  destruct (selectStep lines baseUrl k st) as [st1|e1] eqn:Hstep; [apply IH |].
  intros [= <-].
  destruct (lines !! k) as [line|] eqn:Hk.
  - rewrite (selectStep_variant _ _ _ _ _ Hk) in Hstep.
    destruct (variantBandwidth line) as [bw|] eqn:Hbw; [| discriminate].
    destruct (Js.gt bw (highestBandwidth st)); [| discriminate].
    destruct (lines !! (k + 1)%nat) eqn:Hnext; [discriminate |].
    injection Hstep as <-. split; [reflexivity |].
    exists k, line. by rewrite Hbw.
  - unfold selectStep in Hstep. rewrite Hk in Hstep. discriminate.
Qed.

(** X15.  Variant selection fails in one way only: with the [TypeError] of
    [startsWith] on [undefined], and only when the last line of the text is
    a stream-info tag with a [BANDWIDTH] attribute. *)
Theorem selection_fails_only_on_trailing_tag (playlist baseUrl : string)
    (e : JsError) :
  extractHighestQualityStream playlist baseUrl = Throw e ->
  e = undefinedStartsWith
  /\ exists line,
       last (Js.split newline playlist) = Some line
       /\ is_Some (variantBandwidth line).
Proof.
  unfold extractHighestQualityStream. cbv zeta.
  destruct (selectLoop _ _ _ _ _) as [st|e1] eqn:Hloop; [discriminate |].
  intros [= <-].
  destruct (selectLoop_throws _ _ _ _ _ _ Hloop) as (-> & i & line & Hi & Hbw & Hnext).
  split; [reflexivity |]. exists line. split; [| exact Hbw].
  rewrite last_lookup.
  apply lookup_lt_Some in Hi as Hlt. apply lookup_ge_None_1 in Hnext.
  replace (Nat.pred (length (Js.split newline playlist))) with i by lia.
  exact Hi.
Qed.

Lemma selection_fails_only_on_trailing_tag_witness :
  undefinedStartsWith = undefinedStartsWith
  /\ exists line,
       last (Js.split newline trailingTag) = Some line
       /\ is_Some (variantBandwidth line).
Proof.
  apply (selection_fails_only_on_trailing_tag trailingTag "http://h/master.m3u8"
           undefinedStartsWith).
  reflexivity.
Defined.

Lemma selectLoop_zero lines baseUrl n k :
  (forall line bw, line ∈ lines -> variantBandwidth line = Some bw ->
                   bw = Js.Num 0) ->
  selectLoop n lines baseUrl k
    {| highestBandwidth := Js.Num 0; selectedStreamUrl := "" |}
  = Ok {| highestBandwidth := Js.Num 0; selectedStreamUrl := "" |}.
Proof.
  intros Hzero. revert k. induction n as [|n IH]; intros k; simpl; [reflexivity |].
  destruct (lines !! k) as [line|] eqn:Hk.
  - rewrite (selectStep_variant _ _ _ _ _ Hk).
    destruct (variantBandwidth line) as [bw|] eqn:Hbw; [| apply IH].
    rewrite (Hzero line bw); [simpl; apply IH | | exact Hbw].
    by eapply list_elem_of_lookup_2.
  - unfold selectStep. rewrite Hk. apply IH.
Qed.

(** X16.  A variant is selected only for a positive bandwidth: when every
    bandwidth that the scan reads is 0, variant selection returns the empty
    string, however many variants the playlist lists. *)
Theorem zero_bandwidths_select_nothing (playlist baseUrl : string) :
  (forall line bw, line ∈ Js.split newline playlist ->
                   variantBandwidth line = Some bw -> bw = Js.Num 0) ->
  extractHighestQualityStream playlist baseUrl = Ok "".
Proof.
  intros Hzero. unfold extractHighestQualityStream. cbv zeta.
  by rewrite selectLoop_zero.
Qed.

Lemma zero_bandwidths_select_nothing_witness :
  extractHighestQualityStream zeroBandwidth "http://h/master.m3u8" = Ok "".
Proof.
  apply (zero_bandwidths_select_nothing zeroBandwidth "http://h/master.m3u8").
  intros line bw Hin Hbw. apply list_elem_of_In in Hin. simpl in Hin.
  destruct Hin as [<- | [<- | [<- | []]]]; vm_compute in Hbw;
    first [discriminate | by injection Hbw as <-].
Defined.

Lemma matchBandwidth_unfold line :
  matchBandwidth line
  = match matchBandwidthAt line with
    | Some digits => Some digits
    | None =>
        match line with
        | EmptyString => None
        | String _ line' => matchBandwidth line'
        end
    end.
Proof. by destruct line. Qed.

Lemma stripPrefix_app p s : Js.stripPrefix p (p +:+ s) = Some s.
Proof.
  induction p as [|c p IH]; simpl; [by destruct s |].
  by rewrite Ascii.eqb_refl.
Qed.

Lemma span_digits digits rest :
  every Js.isDigit digits = true ->
  match rest with
  | EmptyString => True
  | String c _ => Js.isDigit c = false
  end ->
  fst (Js.span Js.isDigit (digits +:+ rest)) = digits.
Proof.
  intros Hd Hrest. destruct rest as [|c r].
  - rewrite append_nil_r. clear Hrest.
    induction digits as [|x d IH]; simpl; [reflexivity |].
    simpl in Hd. apply andb_true_iff in Hd as [Hx Hd]. rewrite Hx.
    specialize (IH Hd). destruct (Js.span Js.isDigit d). simpl in *. by rewrite IH.
  - by rewrite span_app.
Qed.

(** The regular expression matches at the leftmost ["BANDWIDTH="] that a
    digit follows. *)
Lemma matchBandwidth_leftmost pre digits rest :
  lacks "B" pre = true ->
  digits <> "" -> every Js.isDigit digits = true ->
  match rest with
  | EmptyString => True
  | String c _ => Js.isDigit c = false
  end ->
  matchBandwidth (pre +:+ "BANDWIDTH=" +:+ digits +:+ rest) = Some digits.
Proof.
  intros Hpre Hne Hd Hrest. induction pre as [|c pre IH].
  - rewrite matchBandwidth_unfold. unfold matchBandwidthAt.
    change ("" +:+ "BANDWIDTH=" +:+ digits +:+ rest)
      with ("BANDWIDTH=" +:+ (digits +:+ rest)).
    rewrite stripPrefix_app, span_digits by done.
    by destruct digits.
  - unfold lacks in Hpre. simpl in Hpre.
    apply andb_true_iff in Hpre as [Hc Hpre].
    apply negb_true_iff in Hc. rewrite Ascii.eqb_sym in Hc.
    rewrite matchBandwidth_unfold.
    change (String c pre +:+ "BANDWIDTH=" +:+ digits +:+ rest)
      with (String c (pre +:+ "BANDWIDTH=" +:+ digits +:+ rest)).
    unfold matchBandwidthAt. simpl Js.stripPrefix. rewrite Hc.
    by apply IH.
Qed.

(** X17.  The bandwidth is read at the first [BANDWIDTH=] of the tag line
    that a digit follows, also inside a longer attribute name: on a tag line
    that gives [AVERAGE-BANDWIDTH] first, the scan compares the average
    bandwidth, whatever [BANDWIDTH] attribute comes after it. *)
Theorem average_bandwidth_read_first (average rest : string) :
  average <> "" -> every Js.isDigit average = true ->
  match rest with
  | EmptyString => True
  | String c _ => Js.isDigit c = false
  end ->
  variantBandwidth
    ("#EXT-X-STREAM-INF:AVERAGE-BANDWIDTH=" +:+ average +:+ rest)
  = Some (Js.parseInt average).
Proof.
  intros Hne Hd Hrest. unfold variantBandwidth.
  assert (Js.includes ("#EXT-X-STREAM-INF:AVERAGE-BANDWIDTH=" +:+ average +:+ rest)
            STREAM_INF = true) as ->.
  { change ("#EXT-X-STREAM-INF:AVERAGE-BANDWIDTH=" +:+ average +:+ rest)
      with (STREAM_INF +:+ (":AVERAGE-BANDWIDTH=" +:+ average +:+ rest)).
    generalize (":AVERAGE-BANDWIDTH=" +:+ average +:+ rest). intros s.
    assert (Js.startsWith (STREAM_INF +:+ s) STREAM_INF = true) as H
      by apply startsWith_app.
    unfold Js.includes. destruct (STREAM_INF +:+ s); by rewrite H. }
  change ("#EXT-X-STREAM-INF:AVERAGE-BANDWIDTH=" +:+ average +:+ rest)
    with ("#EXT-X-STREAM-INF:AVERAGE-" +:+ "BANDWIDTH=" +:+ average +:+ rest).
  by rewrite matchBandwidth_leftmost.
Qed.

Lemma average_bandwidth_read_first_witness :
  variantBandwidth
    ("#EXT-X-STREAM-INF:AVERAGE-BANDWIDTH=" +:+ "1200" +:+ ",BANDWIDTH=2400000")
  = Some (Js.parseInt "1200").
Proof.
  apply (average_bandwidth_read_first "1200" ",BANDWIDTH=2400000");
    [discriminate | reflexivity | reflexivity].
Defined.

(** ** The sort of the results *)

Lemma all_fulfilled {A} (promises : list (Throws A)) :
  (forall k e, promises !! k <> Some (Throw e)) ->
  exists vs, promises = Ok <$> vs.
Proof.
  induction promises as [|[v|e] promises IH]; intros Hok.
  - by exists [].
  - destruct IH as [vs ->]; [intros k e; apply (Hok (S k)) |].
    by exists (v :: vs).
  - by destruct (Hok 0%nat e).
Qed.

(** The results of a fulfilled [Promise.all] are those of the fetches of
    the batch, position by position. *)
Lemma fulfilled_results (fetch : Transport)
    (settling : list (nat * Throws SegmentResult) -> list (nat * Throws SegmentResult))
    (i : Js.number) (batch : list string) (results : list SegmentResult) :
  (forall l, settling l ≡ₚ l) ->
  promiseAll settling (batchPromises fetch i batch) = Some (Ok results) ->
  forall j r, results !! j = Some r ->
    exists url, batch !! j = Some url
                /\ index r = Js.add i (Js.Num (Z.of_nat j))
                /\ downloadSegment fetch url = Ok (data r).
Proof.
  intros Hperm Hall.
  destruct (all_fulfilled (batchPromises fetch i batch)) as [vs Hvs].
  { intros k e Hk.
    destruct (promiseAll_rejected settling Hperm _ k e Hk) as (k' & e' & Hr & _).
    rewrite Hr in Hall. discriminate. }
  rewrite Hvs, (promiseAll_fulfilled settling Hperm) in Hall.
  injection Hall as <-.
  intros j r Hr.
  assert (batchPromises fetch i batch !! j = Some (Ok r)) as Hp
    by (by rewrite Hvs, list_lookup_fmap, Hr).
  unfold batchPromises in Hp. rewrite list_lookup_imap in Hp.
  destruct (batch !! j) as [url|]; [| discriminate]. simpl in Hp.
  exists url. split; [reflexivity |].
  destruct (downloadSegment fetch url) as [d|]; [| discriminate].
  by injection Hp as <-.
Qed.

Lemma fulfilled_results_sorted (fetch : Transport)
    (settling : list (nat * Throws SegmentResult) -> list (nat * Throws SegmentResult))
    (i : Js.number) (batch : list string) (results : list SegmentResult) :
  (forall l, settling l ≡ₚ l) ->
  promiseAll settling (batchPromises fetch i batch) = Some (Ok results) ->
  sortResults results = results.
Proof.
  intros Hperm Hall.
  apply sortResults_ascending. intros j a b Ha Hb.
  destruct (fulfilled_results _ _ _ _ _ Hperm Hall _ _ Ha) as (_ & _ & Hia & _).
  destruct (fulfilled_results _ _ _ _ _ Hperm Hall _ _ Hb) as (_ & _ & Hib & _).
  unfold after. rewrite Hia, Hib.
  destruct i as [z|]; simpl; [| reflexivity].
  unfold Js.gt, Js.lt. apply Z.ltb_ge. lia.
Qed.

(** X18.  [Promise.all] hands the results over in the order of the batch,
    which is the ascending order of [index]: whatever the order in which
    the fetches settle, the sort before the writes changes nothing, and
    the results are those of the URLs of the batch, position by position. *)
Theorem sort_changes_nothing (fetch : Transport)
    (settling : list (nat * Throws SegmentResult) -> list (nat * Throws SegmentResult))
    (i : Js.number) (batch : list string) (results : list SegmentResult) :
  (forall l, settling l ≡ₚ l) ->
  promiseAll settling (batchPromises fetch i batch) = Some (Ok results) ->
  sortResults results = results
  /\ length results = length batch
  /\ forall j r, results !! j = Some r ->
       exists url, batch !! j = Some url
                   /\ index r = Js.add i (Js.Num (Z.of_nat j))
                   /\ downloadSegment fetch url = Ok (data r).
Proof.
  intros Hperm Hall.
  split; [by eapply fulfilled_results_sorted | split].
  - destruct (all_fulfilled (batchPromises fetch i batch)) as [vs Hvs].
    { intros k e Hk.
      destruct (promiseAll_rejected settling Hperm _ k e Hk) as (k' & e' & Hr & _).
      rewrite Hr in Hall. discriminate. }
    rewrite Hvs, (promiseAll_fulfilled settling Hperm) in Hall.
    injection Hall as <-.
    apply (f_equal length) in Hvs.
    unfold batchPromises in Hvs. rewrite length_imap, length_fmap in Hvs. done.
  - by eapply fulfilled_results.
Qed.

Lemma sort_changes_nothing_witness :
  sortResults
    [{| index := Js.Num 4; data := "<http://h/v/s4.ts>" |};
     {| index := Js.Num 5; data := "<http://h/v/s5.ts>" |}]
  = [{| index := Js.Num 4; data := "<http://h/v/s4.ts>" |};
     {| index := Js.Num 5; data := "<http://h/v/s5.ts>" |}].
Proof.
  destruct (sort_changes_nothing serving (lastFirst (Js.Num 4)) (Js.Num 4)
              ["http://h/v/s4.ts"; "http://h/v/s5.ts"]
              [{| index := Js.Num 4; data := "<http://h/v/s4.ts>" |};
               {| index := Js.Num 5; data := "<http://h/v/s5.ts>" |}])
    as [Hsorted _].
  - apply lastFirst_perm.
  - reflexivity.
  - exact Hsorted.
Defined.

(** ** Nothing is written that was not fetched *)

Lemma fetchedBefore_mono fetch issued issued' events :
  (forall x, x ∈ issued -> x ∈ issued') ->
  fetchedBefore fetch issued events -> fetchedBefore fetch issued' events.
Proof.
  revert issued issued'.
  induction events as [|[i u|i d|] events IH]; intros issued issued' Hsub; simpl.
  - done.
  - apply IH. intros x [-> | Hx]%elem_of_cons; [by left | right; by apply Hsub].
  - intros [(url & Hin & Hd) Hrest]. split; [| by eapply IH].
    exists url. split; [by apply Hsub | exact Hd].
  - by apply IH.
Qed.

Lemma fetchedBefore_app fetch issued a b :
  fetchedBefore fetch issued a -> fetchedBefore fetch issued b ->
  fetchedBefore fetch issued (a ++ b).
Proof.
  revert issued. induction a as [|[i u|i d|] a IH]; intros issued; simpl.
  - done.
  - intros Ha Hb. apply IH; [exact Ha |].
    eapply fetchedBefore_mono; [| exact Hb]. intros x Hx. by right.
  - intros [Hw Ha] Hb. split; [exact Hw | by apply IH].
  - apply IH.
Qed.

Lemma issueBatch_trace i batch w :
  trace (issueBatch i batch w)
  = trace w ++ imap (fun j url => Issued (Js.add i (Js.Num (Z.of_nat j))) url) batch.
Proof.
  unfold issueBatch.
  induction batch as [|url batch IH] using rev_ind.
  - simpl. by rewrite app_nil_r.
  - rewrite !imap_app, foldl_app. simpl. rewrite IH.
    by rewrite <- app_assoc, Nat.add_0_r.
Qed.

Lemma writeResults_trace results w :
  trace (writeResults results w)
  = trace w ++ ((fun r => Wrote (index r) (data r)) <$> results).
Proof.
  unfold writeResults. revert w.
  induction results as [|r results IH]; intros w; simpl.
  - by rewrite app_nil_r.
  - rewrite IH. simpl. by rewrite <- app_assoc.
Qed.

(** The writes of a batch follow the issues of the batch. *)
Lemma fetchedBefore_batch fetch i batch results issued :
  (forall j r, results !! j = Some r ->
     exists url, batch !! j = Some url
                 /\ index r = Js.add i (Js.Num (Z.of_nat j))
                 /\ downloadSegment fetch url = Ok (data r)) ->
  fetchedBefore fetch issued
    (imap (fun j url => Issued (Js.add i (Js.Num (Z.of_nat j))) url) batch
     ++ ((fun r => Wrote (index r) (data r)) <$> results)).
Proof.
  intros Hres.
  assert (Hwrites : forall issued',
            (forall j url, batch !! j = Some url ->
               (Js.add i (Js.Num (Z.of_nat j)), url) ∈ issued') ->
            forall rs, (forall r, r ∈ rs -> r ∈ results) ->
            fetchedBefore fetch issued'
              ((fun r => Wrote (index r) (data r)) <$> rs)).
  { intros issued' Hissued rs. induction rs as [|r rs IH]; intros Hsub; [done |].
    rewrite fmap_cons. simpl. split.
    - assert (r ∈ results) as [j Hj]%list_elem_of_lookup by (apply Hsub; by left).
      destruct (Hres j r Hj) as (url & Hurl & -> & Hd).
      exists url. split; [by apply Hissued | exact Hd].
    - apply IH. intros x Hx. apply Hsub. by right. }
  assert (Hgen : forall (f : nat -> Js.number) l issued' tail,
            (forall issued'',
               (forall x, x ∈ issued' -> x ∈ issued'') ->
               (forall j url, l !! j = Some url -> (f j, url) ∈ issued'') ->
               fetchedBefore fetch issued'' tail) ->
            fetchedBefore fetch issued'
              (imap (fun j url => Issued (f j) url) l ++ tail)).
  { intros f l. revert f.
    induction l as [|url l IH]; intros f issued' tail Htail.
    - simpl. apply Htail; [done |]. intros j url. by rewrite lookup_nil.
    - rewrite imap_cons. simpl. apply (IH (f ∘ S)).
      intros issued'' Hsub Hl. apply Htail.
      + intros x Hx. apply Hsub. by right.
      + intros [|j] u; simpl.
        * intros [= <-]. apply Hsub. by left.
        * apply Hl. }
  apply (Hgen (fun j => Js.add i (Js.Num (Z.of_nat j)))).
  intros issued'' _ Hissued. by apply Hwrites.
Qed.

Section Integrity.

Variables (fetch : Transport) (order : Order SegmentResult).
Hypothesis order_perm : forall i l, order i l ≡ₚ l.

Lemma batchStep_fetchedBefore segments concurrency i w r w' :
  batchStep fetch order segments concurrency i w = Some (r, w') ->
  exists events, trace w' = trace w ++ events
                 /\ fetchedBefore fetch [] events.
Proof.
  unfold batchStep, bind, effect.
  set (batch := Js.slice segments i (Js.add i concurrency)).
  destruct (promiseAll _ _) as [[results|e]|] eqn:Hall; [| | discriminate].
  - intros [= <- <-].
    rewrite (fulfilled_results_sorted _ _ _ _ _ (order_perm i) Hall).
    rewrite writeResults_trace, issueBatch_trace, <- app_assoc.
    eexists. split; [reflexivity |].
    apply fetchedBefore_batch.
    by apply (fulfilled_results _ _ _ _ _ (order_perm i) Hall).
  - intros [= <- <-]. rewrite issueBatch_trace.
    eexists. split; [reflexivity |].
    rewrite <- (app_nil_r (imap _ batch)).
    apply (fetchedBefore_batch fetch i batch []).
    intros j r. by rewrite lookup_nil.
Qed.

Lemma batchLoop_fetchedBefore fuel segments concurrency i w r w' :
  batchLoop fuel fetch order segments concurrency i w = Some (r, w') ->
  exists events, trace w' = trace w ++ events
                 /\ fetchedBefore fetch [] events.
Proof.
  revert i w. induction fuel as [|fuel IH]; intros i w;
    rewrite batchLoop_unfold;
    destruct (Js.lt i (Js.Num (Z.of_nat (length segments)))).
  - discriminate.
  - intros [= <- <-]. exists []. by rewrite app_nil_r.
  - unfold bind.
    destruct (batchStep fetch order segments concurrency i w)
      as [[[[]|e] w1]|] eqn:Hstep; [| | discriminate].
    + intros Hrest.
      destruct (batchStep_fetchedBefore _ _ _ _ _ _ Hstep) as (e1 & Ht1 & He1).
      destruct (IH _ _ Hrest) as (e2 & Ht2 & He2).
      exists (e1 ++ e2). rewrite Ht2, Ht1, <- app_assoc.
      split; [reflexivity | by apply fetchedBefore_app].
    + intros [= <- <-]. by eapply batchStep_fetchedBefore.
  - intros [= <- <-]. exists []. by rewrite app_nil_r.
Qed.

(** X19.  In every run of [processMediaPlaylist] that returns or throws,
    whatever the playlist, the concurrency and the answers of the
    transport, every write is of a fetched segment: a fetch with the index
    of the write was issued earlier in the run, and the data written is
    what [downloadSegment] returned for the URL of that fetch.  The file is
    closed after the last of these events. *)
Theorem writes_only_what_was_fetched (fuel : nat)
    (playlist baseUrl outputFile : string) (concurrency : Js.number)
    (w : World) (r : Throws unit) (w' : World) :
  processMediaPlaylist fuel fetch order playlist baseUrl outputFile concurrency w
  = Some (r, w') ->
  exists events,
    trace w' = trace w ++ events ++ [Closed]
    /\ fetchedBefore fetch [] events.
Proof.
  rewrite processMediaPlaylist_loop.
  destruct (batchLoop _ _ _ _ _ _ (openFile w)) as [[r0 w0]|] eqn:Hloop;
    [| discriminate].
  intros [= <- <-].
  destruct (batchLoop_fetchedBefore _ _ _ _ _ _ _ Hloop) as (events & Ht & He).
  exists events. simpl in *. rewrite Ht. by rewrite <- app_assoc.
Qed.

End Integrity.

Lemma writes_only_what_was_fetched_witness :
  exists events,
    [Issued (Js.Num 0) "http://h/v/s0.ts"; Issued (Js.Num 1) "http://h/v/s1.ts";
     Wrote (Js.Num 0) "<http://h/v/s0.ts>"; Wrote (Js.Num 1) "<http://h/v/s1.ts>";
     Issued (Js.Num 2) "http://h/v/s2.ts"; Issued (Js.Num 3) "http://h/v/s3.ts";
     Closed]
    = [] ++ events ++ [Closed]
    /\ fetchedBefore missing [] events.
Proof.
  apply (writes_only_what_was_fetched missing lastFirst lastFirst_perm 3
           mediaPlaylist mediaUrl "out.ts" (Js.Num 2) emptyWorld
           (Throw (fetchError missing "http://h/v/s3.ts"))
           {| content := "<http://h/v/s0.ts><http://h/v/s1.ts>";
              closed := true; progress := 2;
              trace :=
                [Issued (Js.Num 0) "http://h/v/s0.ts";
                 Issued (Js.Num 1) "http://h/v/s1.ts";
                 Wrote (Js.Num 0) "<http://h/v/s0.ts>";
                 Wrote (Js.Num 1) "<http://h/v/s1.ts>";
                 Issued (Js.Num 2) "http://h/v/s2.ts";
                 Issued (Js.Num 3) "http://h/v/s3.ts"; Closed] |}).
  vm_compute. reflexivity.
Defined.

(** ** From the master playlist to the file *)

(** X20.  A download that starts at a master playlist ends with the file of
    the selected variant: the segments are those of the variant's media
    playlist, resolved against the URL of the variant (not of the master),
    and the file holds their payloads in order. *)
Theorem master_download_writes_variant (fetch : Transport)
    (order : Order SegmentResult)
    (url outputFile master streamUrl media : string) (C : Z) (fuel : nat)
    (w : World) :
  (forall i l, order i l ≡ₚ l) ->
  1 <= C ->
  fetchText fetch url = Ok master ->
  Js.includes master STREAM_INF = true ->
  extractHighestQualityStream master url = Ok streamUrl ->
  fetchText fetch streamUrl = Ok media ->
  Js.includes media STREAM_INF = false ->
  (forall u, u ∈ extractSegments media streamUrl -> fetchOk fetch u = true) ->
  (Z.of_nat (length (extractSegments media streamUrl)) + C - 1) / C
  <= Z.of_nat fuel ->
  exists w',
    downloadM3U8 (S fuel) fetch order url outputFile (Some (Js.Num C)) w
    = Some (Ok tt, w')
    /\ content w' = payloads fetch (extractSegments media streamUrl)
    /\ progress w' = length (extractSegments media streamUrl)
    /\ closed w' = true.
Proof.
  intros order_perm HC Hmaster Hismaster Hselect Hmedia Hismedia Hok Hfuel.
  assert (Hc : (1 <= Z.to_nat C)%nat) by lia.
  eexists. split.
  - rewrite downloadM3U8_unfold, Hmaster, Hismaster, Hselect. simpl default.
    rewrite (downloadM3U8_media _ _ _ _ _ _ _ _ Hmedia Hismedia). simpl default.
    by apply processMediaPlaylist_ok.
  - rewrite runBatches_world, (chunks_concat _ Hc). simpl. done.
Qed.

Lemma master_download_writes_variant_witness :
  exists w',
    downloadM3U8 4 redirecting lastFirst masterUrl "out.ts" (Some (Js.Num 2))
      emptyWorld = Some (Ok tt, w')
    /\ content w' = payloads redirecting (extractSegments mediaPlaylist mediaUrl)
    /\ progress w' = length (extractSegments mediaPlaylist mediaUrl)
    /\ closed w' = true.
Proof.
  apply (master_download_writes_variant redirecting lastFirst masterUrl "out.ts"
           masterPlaylist mediaUrl mediaPlaylist 2 3 emptyWorld).
  - exact lastFirst_perm.
  - lia.
  - reflexivity.
  - reflexivity.
  - reflexivity.
  - reflexivity.
  - reflexivity.
  - intros u Hu. vm_compute in Hu.
    repeat (apply elem_of_cons in Hu as [-> | Hu]; [reflexivity |]).
    by apply elem_of_nil in Hu.
  - by vm_compute.
Defined.
